(** * A shallow embedding of cache.go

    The two-tier cache of the proxy: the known-set and busy-marker maps
    guarded by one mutex, the fill operation [put] with its deferred
    [release], the read path [get] with its freshness check
    [checkCacheTTL], and the constructor [CreateCache].

    Go strings are byte sequences and are modelled by [string]; byte slices
    are [list byte], with [None] standing for the nil slice where the code
    tests for it; maps are [gmap]; the operating system, the clock, the
    metrics sinks and the remote fetcher are explicit state. *)

From Stdlib Require Import ZArith Lia List Ascii String.
From Stdlib.Strings Require Import Byte.
From stdpp Require Import base option list strings gmap relations.

Local Open Scope string_scope.
Local Open Scope Z_scope.

(** ** crypto/sha256 and encoding/hex

    [calcHash] is [hex.EncodeToString (sha256.Sum256 data)].  The digest is
    FIPS 180-4 SHA-256 over 32-bit words held in [Z]. *)
Module Sha256.

Definition w32 (x : Z) : Z := x mod 2 ^ 32.

Definition add32 (a b : Z) : Z := w32 (a + b).

Definition rotr (n x : Z) : Z :=
  Z.lor (Z.shiftr x n) (w32 (Z.shiftl x (32 - n))).

Definition Ch (x y z : Z) : Z :=
  Z.lxor (Z.land x y) (Z.land (Z.lxor x 0xffffffff) z).

Definition Maj (x y z : Z) : Z :=
  Z.lxor (Z.lxor (Z.land x y) (Z.land x z)) (Z.land y z).

Definition Sigma0 (x : Z) : Z := Z.lxor (Z.lxor (rotr 2 x) (rotr 13 x)) (rotr 22 x).
Definition Sigma1 (x : Z) : Z := Z.lxor (Z.lxor (rotr 6 x) (rotr 11 x)) (rotr 25 x).
Definition sigma0 (x : Z) : Z := Z.lxor (Z.lxor (rotr 7 x) (rotr 18 x)) (Z.shiftr x 3).
Definition sigma1 (x : Z) : Z := Z.lxor (Z.lxor (rotr 17 x) (rotr 19 x)) (Z.shiftr x 10).

(** The largest [r] below [2 ^ bits] with [r ^ e <= x], one bit at a time. *)
Fixpoint iroot (e : Z) (bits : nat) (x r : Z) : Z :=
  match bits with
  | O => r
  | S bits' =>
      let c := r + 2 ^ Z.of_nat bits' in
      iroot e bits' x (if c ^ e <=? x then c else r)
  end.

Definition is_prime (p : Z) : bool :=
  forallb (λ d, negb (p mod d =? 0)) (map Z.of_nat (seq 2 (Z.to_nat p - 2))).

(** The first 64 primes: 2, 3, 5, ..., 311. *)
Definition primes : list Z :=
  Eval vm_compute in filter (λ p, is_prime p = true) (map Z.of_nat (seq 2 310)).

(** The round constants: the first 32 bits of the fractional parts of the
    cube roots of the first 64 primes. *)
Definition K : list Z :=
  Eval vm_compute in map (λ p, w32 (iroot 3 36 (p * 2 ^ 96) 0)) primes.

(** The initial hash value: the same of the square roots of the first 8. *)
Definition H0 : list Z :=
  Eval vm_compute in map (λ p, w32 (iroot 2 36 (p * 2 ^ 64) 0)) (take 8 primes).

(** Big-endian encoding of [x] on [n] bytes. *)
Fixpoint be_bytes (n : nat) (x : Z) : list Z :=
  match n with
  | O => []
  | S n' => be_bytes n' (Z.shiftr x 8) ++ [x mod 256]
  end.

(** Padding: a 1 bit, zeros up to 56 mod 64, then the bit length on 64 bits. *)
Definition pad (msg : list Z) : list Z :=
  let len := Z.of_nat (length msg) in
  let zeros := Z.to_nat ((55 - len) mod 64) in
  msg ++ [0x80] ++ repeat 0 zeros ++ be_bytes 8 (8 * len).

Fixpoint be_word (bs : list Z) (acc : Z) : Z :=
  match bs with
  | [] => acc
  | b :: bs' => be_word bs' (acc * 256 + b)
  end.

(** The bytes of a block as big-endian 32-bit words. *)
Fixpoint words (n : nat) (bs : list Z) : list Z :=
  match n with
  | O => []
  | S n' => be_word (take 4 bs) 0 :: words n' (drop 4 bs)
  end.

(** The message schedule, kept newest first: the head is W[t-1]. *)
Fixpoint schedule (n : nat) (rev_w : list Z) : list Z :=
  match n with
  | O => rev_w
  | S n' =>
      let w i := nth i rev_w 0 in
      let wt := add32 (add32 (sigma1 (w 1%nat)) (w 6%nat))
                      (add32 (sigma0 (w 14%nat)) (w 15%nat)) in
      schedule n' (wt :: rev_w)
  end.

Record regs := Regs { ra : Z; rb : Z; rc : Z; rd : Z; re : Z; rf : Z; rg : Z; rh : Z }.

Definition round (s : regs) (kw : Z * Z) : regs :=
  let t1 := add32 (add32 (add32 (rh s) (Sigma1 (re s))) (Ch (re s) (rf s) (rg s)))
                  (add32 (fst kw) (snd kw)) in
  let t2 := add32 (Sigma0 (ra s)) (Maj (ra s) (rb s) (rc s)) in
  Regs (add32 t1 t2) (ra s) (rb s) (rc s) (add32 (rd s) t1) (re s) (rf s) (rg s).

Definition regs_of (h : list Z) : regs :=
  let g i := nth i h 0 in
  Regs (g 0%nat) (g 1%nat) (g 2%nat) (g 3%nat) (g 4%nat) (g 5%nat) (g 6%nat) (g 7%nat).

Definition compress (h : list Z) (block : list Z) : list Z :=
  let w := rev (schedule 48 (rev (words 16 block))) in
  let s0 := regs_of h in
  let s := fold_left round (combine K w) s0 in
  [ add32 (ra s0) (ra s); add32 (rb s0) (rb s); add32 (rc s0) (rc s);
    add32 (rd s0) (rd s); add32 (re s0) (re s); add32 (rf s0) (rf s);
    add32 (rg s0) (rg s); add32 (rh s0) (rh s) ].

Fixpoint blocks (n : nat) (h : list Z) (bs : list Z) : list Z :=
  match n with
  | O => h
  | S n' => blocks n' (compress h (take 64 bs)) (drop 64 bs)
  end.

(** [sha256.Sum256]: the 32 bytes of the digest. *)
Definition Sum256 (msg : list Z) : list Z :=
  let p := pad msg in
  flat_map (be_bytes 4) (blocks (length p / 64) H0 p).

End Sha256.

Definition hexdigit (n : Z) : ascii :=
  ascii_of_nat (Z.to_nat (if n <? 10 then 48 + n else 87 + n)).

(** [hex.EncodeToString]: two lower-case digits per byte. *)
Fixpoint EncodeToString (bs : list Z) : string :=
  match bs with
  | [] => ""
  | b :: bs' => String (hexdigit (b / 16)) (String (hexdigit (b mod 16)) (EncodeToString bs'))
  end.

(** [[]byte(data)]: the bytes of a Go string. *)
Fixpoint string_bytes (s : string) : list Z :=
  match s with
  | EmptyString => []
  | String c s' => Z.of_nat (nat_of_ascii c) :: string_bytes s'
  end.

(** cache.go:212 *)
Definition calcHash (data : string) : string :=
  EncodeToString (Sha256.Sum256 (string_bytes data)).

Arguments calcHash : simpl never.

(** ** Values of the Go runtime *)

(** The [error] values the cache produces or passes on. *)
Inductive error :=
| KeyNotKnown (hashValue : string)   (* cache.go:118, "Key '%s' is not known to cache" *)
| PathError (op path : string)       (* os: stat, open, create, write, readdir *)
| ReadError (msg : string)           (* the input stream of put *)
| FetchError (msg : string)          (* GetRemote *)
| URLError (msg : string).           (* removeSchemeFromURL *)

(** A call either returns or panics. *)
Inductive outcome (A : Type) :=
| Returns (a : A)
| Panics (msg : string).
Arguments Returns {A} a.
Arguments Panics {A} msg.

(** A call on a mutex either completes or waits for ever. *)
Inductive blocking (A : Type) :=
| Done (a : A)
| Blocked.
Arguments Done {A} a.
Arguments Blocked {A}.

(** An [io.Reader] argument: the bytes it delivers, the error that ends it
    ([None] is [io.EOF]) and whether its dynamic type also implements
    [io.WriterTo], which [io.Copy] prefers (an HTTP body does not).  A
    WriterTo source hands its bytes to the destination in successive Write
    calls; [rcuts] gives the lengths of all but the last of them: none for
    bytes.Reader and bytes.Buffer, which make one Write of all that is
    left, one per inner reader but the last for io.MultiReader. *)
Record Reader := {
  rdata : list byte;
  rerr : option error;
  rWriterTo : bool;
  rcuts : list nat }.

(** The arguments of the successive Write calls of a WriterTo source; a
    source with nothing left makes none. *)
Fixpoint pieces (cuts : list nat) (data : list byte) : list (list byte) :=
  match cuts with
  | [] => match data with [] => [] | _ => [data] end
  | k :: cuts' => take k data :: pieces cuts' (drop k data)
  end.

(** [len] of a byte slice; nil has length 0. *)
Definition len (s : option (list byte)) : Z :=
  match s with
  | Some l => Z.of_nat (length l)
  | None => 0
  end.

Definition slice_bytes (s : option (list byte)) : list byte := default [] s.

(** [io.Copy(buffer, r)] into an empty [bytes.Buffer], then [buffer.Bytes()].
    A WriterTo source with nothing left never touches the buffer, whose
    storage stays nil; Buffer.ReadFrom allocates before its first read. *)
Definition copyToBuffer (r : Reader) : option (list byte) * option error :=
  (if rWriterTo r && bool_decide (rdata r = []) then None else Some (rdata r),
   rerr r).

(** int64 arithmetic wraps. *)
Definition wrap64 (z : Z) : Z := (z + 2 ^ 63) mod 2 ^ 64 - 2 ^ 63.

(** ** The operating system, the clock and the metrics *)

Record File := {
  fdata : list byte;
  modTime : Z }.

Record FileInfo := {
  Name : string;
  IsDir : bool }.

(** [files] and [dirs] are keyed by the path string handed to the system
    call.  [wfault] tells what a write to a path does: no entry, it
    succeeds; [Some None], the file cannot be opened for writing;
    [Some (Some n)], the file takes [n] bytes and the write then fails; a
    directory with an entry cannot be made.  Times are nanoseconds on one
    clock, [now]. *)
Record World := {
  files : gmap string File;
  dirs : gset string;
  wfault : gmap string (option nat);
  now : Z;
  promCounters : gmap string nat;
  promSummaries : list (string * Z);
  fetched : list string }.

Definition with_files (fs : gmap string File) (w : World) : World :=
  {| files := fs; dirs := dirs w; wfault := wfault w; now := now w;
     promCounters := promCounters w; promSummaries := promSummaries w;
     fetched := fetched w |}.

Definition with_dirs (ds : gset string) (w : World) : World :=
  {| files := files w; dirs := ds; wfault := wfault w; now := now w;
     promCounters := promCounters w; promSummaries := promSummaries w;
     fetched := fetched w |}.

Definition with_now (t : Z) (w : World) : World :=
  {| files := files w; dirs := dirs w; wfault := wfault w; now := t;
     promCounters := promCounters w; promSummaries := promSummaries w;
     fetched := fetched w |}.

(** [promCounters[name].Inc()] *)
Definition Inc (name : string) (w : World) : World :=
  {| files := files w; dirs := dirs w; wfault := wfault w; now := now w;
     promCounters := <[name := S (default O (promCounters w !! name))]> (promCounters w);
     promSummaries := promSummaries w;
     fetched := fetched w |}.

(** [promSummaries[name].Observe(float64(v))] *)
Definition Observe (name : string) (v : Z) (w : World) : World :=
  {| files := files w; dirs := dirs w; wfault := wfault w; now := now w;
     promCounters := promCounters w;
     promSummaries := (promSummaries w ++ [(name, v)])%list;
     fetched := fetched w |}.

Definition counter (name : string) (w : World) : nat :=
  default O (promCounters w !! name).

(** [os.Stat] of a regular file. *)
Definition Stat (path : string) (w : World) : error + File :=
  match files w !! path with
  | Some f => inr f
  | None => inl (PathError "stat" path)
  end.

(** [os.Open]: the handle is the path; reading it yields the file's bytes. *)
Definition Open (path : string) (w : World) : error + string :=
  match files w !! path with
  | Some _ => inr path
  | None => inl (PathError "open" path)
  end.

(** [os.Create]: create or truncate. *)
Definition Create (path : string) (w : World) : option error * World :=
  match wfault w !! path with
  | Some None => (Some (PathError "open" path), w)
  | _ => (None, with_files (<[path := {| fdata := []; modTime := now w |}]> (files w)) w)
  end.

(** [file.Write(p)] on a file opened for writing at [path]. *)
Definition Write (path : string) (p : list byte) (w : World) : option error * World :=
  let old := default [] (fdata <$> files w !! path) in
  let room :=
    match wfault w !! path with
    | Some (Some n) => Some (n - length old)%nat
    | _ => None
    end in
  let put_data d :=
    with_files (<[path := {| fdata := (old ++ d)%list; modTime := now w |}]> (files w)) w in
  match room with
  | Some k =>
      if (length p <=? k)%nat then (None, put_data p)
      else (Some (PathError "write" path), put_data (take k p))
  | None => (None, put_data p)
  end.

(** [ioutil.WriteFile]: create or truncate, write, close. *)
Definition WriteFile (path : string) (data : list byte) (w : World) : option error * World :=
  match Create path w with
  | (Some e, w') => (Some e, w')
  | (None, w') => Write path data w'
  end.

(** The size of a [bufio.Writer] made by [bufio.NewWriter]. *)
Definition bufioSize : nat := 4096.

(** [Writer.Write(p)] of a [bufio.Writer] over the file at [path] whose
    buffer holds [buf]: a [p] that fits the room left is only buffered; with
    an empty buffer a larger [p] goes straight to the file; otherwise the
    buffer is filled up and flushed, and what is left of [p] is buffered if
    it fits an empty buffer and written straight to the file if not. *)
Definition bufioWrite (path : string) (p buf : list byte) (w : World)
  : option error * list byte * World :=
  let avail := (bufioSize - length buf)%nat in
  if (length p <=? avail)%nat then (None, (buf ++ p)%list, w)
  else
    match buf with
    | [] => let '(err, w') := Write path p w in (err, [], w')
    | _ =>
        match Write path (buf ++ take avail p) w with
        | (Some err, w') => (Some err, [], w')
        | (None, w') =>
            let rest := drop avail p in
            if (length rest <=? bufioSize)%nat then (None, rest, w')
            else let '(err, w'') := Write path rest w' in (err, [], w'')
        end
    end.

(** The Write calls of a WriterTo source, one after the other, up to the
    first that fails. *)
Fixpoint writePieces (path : string) (ps : list (list byte)) (buf : list byte) (w : World)
  : option error * list byte * World :=
  match ps with
  | [] => (None, buf, w)
  | p :: ps' =>
      match bufioWrite path p buf w with
      | (Some err, buf', w') => (Some err, buf', w')
      | (None, buf', w') => writePieces path ps' buf' w'
      end
  end.

(** [io.Copy(bufio.NewWriter(file), r)] with no Flush afterwards, as
    cache.go:199-200 has it: what the writer still holds when put returns
    never reaches the file.  A WriterTo source writes its pieces through
    Writer.Write.  Any other source is read by Writer.ReadFrom, which with
    an empty buffer passes the reader on to the file's own ReadFrom (Go
    1.15 and later). *)
Definition copyToFile (path : string) (r : Reader) (w : World) : option error * World :=
  if rWriterTo r then
    match writePieces path (pieces (rcuts r) (rdata r)) [] w with
    | (Some err, _, w') => (Some err, w')
    | (None, _, w') => (rerr r, w')
    end
  else
    match Write path (rdata r) w with
    | (Some e, w') => (Some e, w')
    | (None, w') => (rerr r, w')
    end.

(** What a [bufio.Writer] holds after a Write that succeeds. *)
Definition bufferAfter (p buf : list byte) : list byte :=
  let avail := (bufioSize - length buf)%nat in
  if (length p <=? avail)%nat then (buf ++ p)%list
  else
    match buf with
    | [] => []
    | _ =>
        let rest := drop avail p in
        if (length rest <=? bufioSize)%nat then rest else []
    end.

(** The bytes of a stream that are still in put's buffered writer, and so
    are lost, when the disk-only copy ends without a write error. *)
Definition unflushed (r : Reader) : list byte :=
  if rWriterTo r
  then fold_left (λ buf p, bufferAfter p buf) (pieces (rcuts r) (rdata r)) []
  else [].

(** The world once the file at [path] holds [data], written at the time
    of [w]. *)
Definition written (path : string) (data : list byte) (w : World) : World :=
  with_files (<[path := {| fdata := data; modTime := now w |}]> (files w)) w.

Definition ends_with_slash (s : string) : bool :=
  match last (list_ascii_of_string s) with
  | Some c => bool_decide (c = "/"%char)
  | None => false
  end.

Fixpoint strip_prefix (p s : string) : option string :=
  match p, s with
  | EmptyString, _ => Some s
  | String a p', String b s' => if bool_decide (a = b) then strip_prefix p' s' else None
  | String _ _, EmptyString => None
  end.

Fixpoint has_slash (s : string) : bool :=
  match s with
  | EmptyString => false
  | String c s' => bool_decide (c = "/"%char) || has_slash s'
  end.

(** The name under which [path] appears in directory [dir], if it does. *)
Definition entryName (dir path : string) : option string :=
  match strip_prefix (if ends_with_slash dir then dir else dir ++ "/") path with
  | Some n => if bool_decide (n = "") || has_slash n then None else Some n
  | None => None
  end.

(** [ioutil.ReadDir]: nil and an error when the directory cannot be read. *)
Definition ReadDir (path : string) (w : World) : list FileInfo * option error :=
  if bool_decide (path ∈ dirs w) then
    ((omap (λ pf, (λ n, {| Name := n; IsDir := false |}) <$> entryName path pf.1)
           (map_to_list (files w))
      ++ omap (λ d, (λ n, {| Name := n; IsDir := true |}) <$> entryName path d)
              (elements (dirs w)))%list,
     None)
  else ([], Some (PathError "open" path)).

(** [os.Mkdir]: fails when the directory exists or cannot be made. *)
Definition Mkdir (path : string) (w : World) : option error * World :=
  if bool_decide (path ∈ dirs w) then (Some (PathError "mkdir" path), w)
  else
    match wfault w !! path with
    | Some _ => (Some (PathError "mkdir" path), w)
    | None => (None, with_dirs ({[path]} ∪ dirs w) w)
    end.

(** ** Configuration and collaborators *)

Record CacheRule := {
  Regex : string;
  TTL : Z }.

(** Modelled from the spec: the declaration of [config] is not part of
    cache.go.  The spec gives the size threshold, the default TTL and the
    rules as an ordered list of (name, pattern, TTL); [CacheRules] lists them
    in the order [range] visits them, the key first. *)
Record Config := {
  MaxCacheItemSize : Z;
  DefaultCacheTTL : Z;
  CacheRules : list (string * CacheRule) }.

(** What cache.go calls and does not define: package regexp, the helper
    [removeSchemeFromURL], the fetcher [GetRemote] (which sees the world and
    leaves a file store behind) and the global [config]. *)
Record Env := {
  Regexp : Type;
  Compile : string → option Regexp;
  MatchString : Regexp → string → bool;
  removeSchemeFromURL : string → error + string;
  GetRemote : string → World → option error * gmap string File;
  config : Config }.

(** [regexp.MustCompile] *)
Definition MustCompile (E : Env) (expr : string) : outcome (Regexp E) :=
  match Compile E expr with
  | Some r => Returns r
  | None => Panics ("regexp: Compile(" ++ expr ++ ")")
  end.

(** ** The cache *)

Record KnownValues := {
  loadedAt : Z;
  content : option (list byte) }.

(** The zero value [KnownValues{}]. *)
Definition zeroKnownValues : KnownValues := {| loadedAt := 0; content := None |}.

(** A [*sync.Mutex] is an index into the list of allocated mutexes; the
    entry tells whether the mutex is locked. *)
Definition Mutexes := list bool.

(** The fields of [Cache] the code reads: [hash] is never used and [mutex]
    delimits the critical sections, each of which is one atomic step here. *)
Record Cache := {
  folder : string;
  knownValues : gmap string KnownValues;
  busyValues : gmap string nat }.

(** What [get] hands back: the opened file or a reader over the slice. *)
Inductive Response :=
| FromFile (path : string)
| FromMemory (bytes : list byte).

(** The bytes a caller reads from the response. *)
Definition readAll (r : Response) (w : World) : list byte :=
  match r with
  | FromFile path => default [] (fdata <$> files w !! path)
  | FromMemory bytes => bytes
  end.

(** cache.go:33 *)
Definition CreateCache (path : string) (w : World) : (Cache * option error) * World :=
  let '(fileInfos, err) := ReadDir path w in
  let w1 := match err with Some _ => (Mkdir path w).2 | None => w end in
  let values :=
    fold_left (λ (values : gmap string KnownValues) info,
                 if negb (IsDir info) then <[Name info := zeroKnownValues]> values
                 else values)
              fileInfos ∅ in
  ({| folder := path; knownValues := values; busyValues := ∅ |}, None, w1).

(** cache.go:89-100, the critical section that decides a call of [has]:
    found, or a new locked mutex registered as busy marker. *)
Definition has_decide (hashValue : string) (c : Cache) (m : Mutexes)
  : (option nat * bool) * Cache * Mutexes :=
  match knownValues c !! hashValue with
  | Some _ => ((None, true), c, m)
  | None =>
      let lock := length m in
      ((Some lock, false),
       {| folder := folder c; knownValues := knownValues c;
          busyValues := <[hashValue := lock]> (busyValues c) |},
       (m ++ [true])%list)
  end.

(** cache.go:73, run with no other goroutine: waiting on a locked busy
    marker never ends. *)
Definition has (key : string) (c : Cache) (m : Mutexes)
  : blocking ((option nat * bool) * Cache * Mutexes) :=
  let hashValue := calcHash key in
  match busyValues c !! hashValue with
  | Some lock =>
      match m !! lock with
      | Some false => Done (has_decide hashValue c m)
      | _ => Blocked
      end
  | None => Done (has_decide hashValue c m)
  end.

(** cache.go:164 *)
Definition release (hashValue : string) (content : option (list byte)) (loadedAt : Z)
    (c : Cache) : Cache :=
  {| folder := folder c;
     knownValues := <[hashValue := {| loadedAt := loadedAt; content := content |}]> (knownValues c);
     busyValues := delete hashValue (busyValues c) |}.

(** A call registered by [defer], its arguments evaluated at the [defer]. *)
Inductive deferred :=
| Release (hashValue : string) (content : option (list byte)) (loadedAt : Z).

Definition run_deferred (d : deferred) (c : Cache) : Cache :=
  match d with
  | Release hashValue content loadedAt => release hashValue content loadedAt c
  end.

(** Deferred calls run last registered first when the function returns;
    the list has the last registered at its head. *)
Definition run_defers (ds : list deferred) (c : Cache) : Cache :=
  fold_left (λ c d, run_deferred d c) ds c.

Section WithEnv.

Variable E : Env.

(** [config.MaxCacheItemSize*1024*1024] *)
Definition sizeThreshold : Z :=
  wrap64 (wrap64 (MaxCacheItemSize (config E) * 1024) * 1024).

(** cache.go:171, up to its return: the error, the deferred calls
    registered on the path taken, and the world. *)
Definition put_body (c : Cache) (key : string) (r : Reader) (contentLength : Z) (w : World)
  : option error * list deferred * World :=
  let hashValue := calcHash key in
  if contentLength <=? sizeThreshold then
    match copyToBuffer r with
    | (_, Some err) => (Some err, [], w)
    | (buffer, None) =>
        let defers := [Release hashValue buffer (now w)] in
        match WriteFile (folder c ++ hashValue) (slice_bytes buffer) w with
        | (Some err, w') => (Some err, defers, w')
        | (None, w') => (None, defers, w')
        end
    end
  else
    let defers := [Release hashValue None (now w)] in
    match Create (folder c ++ hashValue) w with
    | (Some err, w') => (Some err, defers, w')
    | (None, w') =>
        match copyToFile (folder c ++ hashValue) r w' with
        | (Some err, w'') => (Some err, defers, w'')
        | (None, w'') => (None, defers, w'')
        end
    end.

(** cache.go:171 *)
Definition put (c : Cache) (key : string) (r : Reader) (contentLength : Z) (w : World)
  : option error * Cache * World :=
  let '(err, defers, w') := put_body c key r contentLength w in
  (err, run_defers defers c, w').

(** cache.go:224-234: the rules in order, the first match ends the loop. *)
Fixpoint ruleTTL (rules : list (string * CacheRule)) (cacheURL : string) (ttl : Z)
  : outcome Z :=
  match rules with
  | [] => Returns ttl
  | (name, cr) :: rest =>
      match MustCompile E (Regex cr) with
      | Panics msg => Panics msg
      | Returns r =>
          if MatchString E r cacheURL then Returns (TTL cr)
          else ruleTTL rest cacheURL ttl
      end
  end.

(** cache.go:217 *)
Definition checkCacheTTL (filePath cacheURL requestedURL : string) (w : World)
  : outcome (option error) * World :=
  match Stat filePath w with
  | inl err => (Returns (Some err), w)
  | inr fi =>
      let mtime := modTime fi in
      match ruleTTL (CacheRules (config E)) cacheURL (DefaultCacheTTL (config E)) with
      | Panics msg => (Panics msg, w)
      | Returns ttl =>
          let validUntil := mtime + ttl in
          if validUntil <? now w then
            let w1 := Inc "CACHE_TOO_OLD" w in
            let '(err, fs) := GetRemote E requestedURL w1 in
            (Returns err,
             {| files := fs; dirs := dirs w1; wfault := wfault w1; now := now w1;
                promCounters := promCounters w1; promSummaries := promSummaries w1;
                fetched := (fetched w1 ++ [requestedURL])%list |})
          else (Returns None, Inc "CACHE_OK" w)
      end
  end.

(** cache.go:103 *)
Definition get (c : Cache) (requestedURL : string) (w : World)
  : outcome (error + Response) * World :=
  match removeSchemeFromURL E requestedURL with
  | inl err => (Returns (inl err), w)
  | inr cacheURL =>
      let hashValue := calcHash cacheURL in
      let KnownValue := default zeroKnownValues (knownValues c !! hashValue) in
      let ok := bool_decide (is_Some (knownValues c !! hashValue)) in
      let content := content KnownValue in
      if negb ok && (0 <? len content) then
        (Returns (inl (KeyNotKnown hashValue)), w)
      else
        match content with
        | None =>
            match checkCacheTTL (folder c ++ hashValue) cacheURL requestedURL w with
            | (Panics msg, w1) => (Panics msg, w1)
            | (Returns (Some err), w1) => (Returns (inl err), w1)
            | (Returns None, w1) =>
                match Open (folder c ++ hashValue) w1 with
                | inl err => (Returns (inl err), w1)
                | inr file =>
                    match Stat file w1 with
                    | inl err => (Returns (inl err), w1)
                    | inr fi =>
                        (Returns (inr (FromFile file)),
                         Observe "CACHE_READ_FILE" (Z.of_nat (length (fdata fi))) w1)
                    end
                end
            end
        | Some bytes =>
            match checkCacheTTL (folder c ++ hashValue) cacheURL requestedURL w with
            | (Panics msg, w1) => (Panics msg, w1)
            | (Returns (Some err), w1) => (Returns (inl err), w1)
            | (Returns None, w1) =>
                (Returns (inr (FromMemory bytes)),
                 Observe "CACHE_READ_MEMORY" (len content) w1)
            end
        end
  end.

End WithEnv.

(** ** Goroutines

    Every access to the two maps happens with [c.mutex] held, so each
    critical section is one atomic step.  A goroutine calls [has]; if it
    gets the permit it fills the entry with [put] and then unlocks the
    permit, as the comment on [has] asks of its caller. *)

Inductive pc :=
| AtHas (key : string)                       (* cache.go:76, before c.mutex.Lock() *)
| AtLock (hashValue : string) (lock : nat)   (* cache.go:84, before lock.Lock() *)
| AtUnlock (hashValue : string) (lock : nat) (* cache.go:85, before lock.Unlock() *)
| AtRelock (hashValue : string)              (* cache.go:86, before c.mutex.Lock() *)
| Filling (hashValue : string) (lock : nat)  (* has returned (lock, false) *)
| Filled (lock : nat)                        (* put has returned *)
| Found                                      (* has returned (nil, true) *)
| Finished.                                  (* the permit is unlocked *)

Record State := {
  cache : Cache;
  mutexes : Mutexes;
  threads : list pc }.

(** [Run tid]: the next step of goroutine [tid] inside [has], or the unlock
    of its permit.  [Put tid rel]: the permit holder's [put] returns, having
    run [release] with the given arguments or, for [None], not at all.
    [Store]: a [put] by a goroutine without a permit, as a refresh does. *)
Inductive action :=
| Run (tid : nat)
| Put (tid : nat) (rel : option (option (list byte) * Z))
| Store (hashValue : string) (content : option (list byte)) (loadedAt : Z).

Definition after_decide (hashValue : string) (res : option nat * bool) : pc :=
  match res with
  | (Some lock, _) => Filling hashValue lock
  | (None, _) => Found
  end.

Definition exec (a : action) (s : State) : option State :=
  match a with
  | Run tid =>
      match threads s !! tid with
      | Some (AtHas key) =>
          let hashValue := calcHash key in
          match busyValues (cache s) !! hashValue with
          | Some lock =>
              Some {| cache := cache s; mutexes := mutexes s;
                      threads := <[tid := AtLock hashValue lock]> (threads s) |}
          | None =>
              let '(res, c, m) := has_decide hashValue (cache s) (mutexes s) in
              Some {| cache := c; mutexes := m;
                      threads := <[tid := after_decide hashValue res]> (threads s) |}
          end
      | Some (AtLock hashValue lock) =>
          match mutexes s !! lock with
          | Some false =>
              Some {| cache := cache s; mutexes := <[lock := true]> (mutexes s);
                      threads := <[tid := AtUnlock hashValue lock]> (threads s) |}
          | _ => None
          end
      | Some (AtUnlock hashValue lock) =>
          Some {| cache := cache s; mutexes := <[lock := false]> (mutexes s);
                  threads := <[tid := AtRelock hashValue]> (threads s) |}
      | Some (AtRelock hashValue) =>
          let '(res, c, m) := has_decide hashValue (cache s) (mutexes s) in
          Some {| cache := c; mutexes := m;
                  threads := <[tid := after_decide hashValue res]> (threads s) |}
      | Some (Filled lock) =>
          Some {| cache := cache s; mutexes := <[lock := false]> (mutexes s);
                  threads := <[tid := Finished]> (threads s) |}
      | _ => None
      end
  | Put tid rel =>
      match threads s !! tid with
      | Some (Filling hashValue lock) =>
          Some {| cache := match rel with
                           | Some (content, loadedAt) =>
                               release hashValue content loadedAt (cache s)
                           | None => cache s
                           end;
                  mutexes := mutexes s;
                  threads := <[tid := Filled lock]> (threads s) |}
      | _ => None
      end
  | Store hashValue content loadedAt =>
      Some {| cache := release hashValue content loadedAt (cache s);
              mutexes := mutexes s; threads := threads s |}
  end.

Definition step (s s' : State) : Prop := ∃ a, exec a s = Some s'.

(** A schedule, run from left to right; [None] if some step cannot be taken. *)
Fixpoint run (sched : list action) (s : State) : option State :=
  match sched with
  | [] => Some s
  | a :: rest =>
      match exec a s with
      | Some s' => run rest s'
      | None => None
      end
  end.

Definition busy (hashValue : string) (s : State) : Prop :=
  is_Some (busyValues (cache s) !! hashValue).

Definition known (hashValue : string) (s : State) : Prop :=
  is_Some (knownValues (cache s) !! hashValue).

(** ** Stand-ins for the collaborators, to run the code on examples *)

(** Package regexp on the literal fragment of its syntax: an optional [^]
    followed by ordinary characters.  Patterns with any other metacharacter
    are not accepted here; for one such as ["("] or ["*"] this is also
    what regexp.Compile answers (a syntax error). *)
Inductive LitRegexp :=
| Lit (anchored : bool) (text : string).

Definition metachar (c : ascii) : bool :=
  existsb (λ m, bool_decide (c = m)) (list_ascii_of_string "\.+*?()|[]{}^$").

Definition litCompile (expr : string) : option LitRegexp :=
  match expr with
  | String "^"%char text =>
      if existsb metachar (list_ascii_of_string text) then None else Some (Lit true text)
  | _ =>
      if existsb metachar (list_ascii_of_string expr) then None else Some (Lit false expr)
  end.

Fixpoint contains (text s : string) : bool :=
  String.prefix text s ||
  match s with
  | EmptyString => false
  | String _ s' => contains text s'
  end.

Definition litMatch (r : LitRegexp) (s : string) : bool :=
  match r with
  | Lit true text => String.prefix text s
  | Lit false text => contains text s
  end.

Fixpoint afterScheme (s : string) : option string :=
  match strip_prefix "://" s with
  | Some rest => Some rest
  | None =>
      match s with
      | EmptyString => None
      | String _ s' => afterScheme s'
      end
  end.

(** Modelled from the spec: [removeSchemeFromURL] is not part of cache.go.
    The spec has the cache key be the URL with its transport scheme
    stripped. *)
Definition stripScheme (url : string) : error + string :=
  inr (default url (afterScheme url)).

(** A fetcher whose every call fails and leaves the files alone. *)
Definition failingRemote (url : string) (w : World) : option error * gmap string File :=
  (Some (FetchError url), files w).

(** A fetcher that rewrites nothing and reports success. *)
Definition idleRemote (url : string) (w : World) : option error * gmap string File :=
  (None, files w).

Definition litEnv (remote : string → World → option error * gmap string File)
    (cfg : Config) : Env :=
  {| Regexp := LitRegexp; Compile := litCompile; MatchString := litMatch;
     removeSchemeFromURL := stripScheme; GetRemote := remote; config := cfg |}.

(** An empty disk with the cache directory in place, at time [t]. *)
Definition emptyWorld (dir : string) (t : Z) : World :=
  {| files := ∅; dirs := {[dir]}; wfault := ∅; now := t;
     promCounters := ∅; promSummaries := []; fetched := [] |}.

(** [bytes.NewReader(data)] and a stream without WriteTo. *)
Definition bytesReader (data : list byte) : Reader :=
  {| rdata := data; rerr := None; rWriterTo := true; rcuts := [] |}.

Definition bodyReader (data : list byte) : Reader :=
  {| rdata := data; rerr := None; rWriterTo := false; rcuts := [] |}.

(** [io.MultiReader] of a bytes.Reader over the first [k] bytes of [data]
    and one over the rest. *)
Definition multiReader (k : nat) (data : list byte) : Reader :=
  {| rdata := data; rerr := None; rWriterTo := true; rcuts := [k] |}.

(** A body whose connection breaks after [data]. *)
Definition brokenReader (data : list byte) : Reader :=
  {| rdata := data; rerr := Some (ReadError "unexpected EOF"); rWriterTo := false;
     rcuts := [] |}.

(** ** The TTL policy in the spec's words

    The TTL of the first rule, in the configured order, whose pattern matches
    the key; the default TTL when none matches. *)
Definition ruleMatches (E : Env) (cacheURL : string) (rule : string * CacheRule) : bool :=
  match Compile E (Regex rule.2) with
  | Some r => MatchString E r cacheURL
  | None => false
  end.


Definition compiles (E : Env) (rule : string * CacheRule) : Prop :=
  is_Some (Compile E (Regex rule.2)).


(** Durations in nanoseconds, as [time.Duration] counts them. *)
Definition Second : Z := 1000000000.
Definition Hour : Z := 3600 * Second.

(** The spec's example: rules a = ^/images/ for 10s and b = ^/images/thumb
    for 1h; the key /images/thumb/x.png gets 10s. *)
Definition imageRules : Config :=
  {| MaxCacheItemSize := 1;
     DefaultCacheTTL := 5 * Second;
     CacheRules := [ ("a", {| Regex := "^/images/"; TTL := 10 * Second |});
                     ("b", {| Regex := "^/images/thumb"; TTL := Hour |}) ] |}.


(** ** Invariants of the two maps *)

(** No identifier is busy and known at once. *)
Definition cache_exclusive (c : Cache) : Prop :=
  ∀ hashValue,
    ¬ (is_Some (busyValues c !! hashValue) ∧ is_Some (knownValues c !! hashValue)).

(** The identifier is being filled or known. *)
Definition cache_covers (hashValue : string) (c : Cache) : Prop :=
  is_Some (busyValues c !! hashValue) ∨ is_Some (knownValues c !! hashValue).

(** [n] goroutines about to call [has] for the same key. *)
Definition callers (n : nat) (key : string) (c : Cache) : State :=
  {| cache := c; mutexes := []; threads := replicate n (AtHas key) |}.

(** While the first permit is out: one goroutine fills, its marker is the
    registered one and is locked, and every other goroutine is still about
    to call [has] or waits on that marker. *)
Definition one_filler (key : string) (s : State) : Prop :=
  ∃ tid lock,
    threads s !! tid = Some (Filling (calcHash key) lock)
    ∧ busyValues (cache s) !! calcHash key = Some lock
    ∧ mutexes s !! lock = Some true
    ∧ ∀ tid' p, tid' ≠ tid → threads s !! tid' = Some p →
        p = AtHas key ∨ p = AtLock (calcHash key) lock.

(** Nobody has called [has] yet. *)
Definition no_filler (key : string) (s : State) : Prop :=
  busyValues (cache s) !! calcHash key = None
  ∧ ∀ tid p, threads s !! tid = Some p → p = AtHas key.

Definition is_run (a : action) : Prop :=
  match a with
  | Run _ => True
  | _ => False
  end.

(** ** Inputs on which the properties below are run *)

Definition cacheDir : string := "cache/".
Definition exampleURL : string := "http://example.com/a".
Definition exampleKey : string := "example.com/a".
Definition hello : list byte := list_byte_of_string "hello".

(** No rules, a default TTL of five seconds, a threshold of 1 MiB. *)
Definition plainConfig : Config :=
  {| MaxCacheItemSize := 1; DefaultCacheTTL := 5 * Second; CacheRules := [] |}.

(** The same with a threshold of zero: every non-empty item is disk-only. *)
Definition diskOnlyConfig : Config :=
  {| MaxCacheItemSize := 0; DefaultCacheTTL := 5 * Second; CacheRules := [] |}.

(** A rule list whose second pattern is not a regular expression. *)
Definition brokenRules : Config :=
  {| MaxCacheItemSize := 1;
     DefaultCacheTTL := 5 * Second;
     CacheRules := [ ("a", {| Regex := "^/images/"; TTL := 10 * Second |});
                     ("b", {| Regex := "("; TTL := Hour |}) ] |}.

(** A disk that holds the backing file of [key], written at [written]; the
    clock shows [t]. *)
Definition storedWorld (key : string) (data : list byte) (written t : Z) : World :=
  {| files := {[ cacheDir ++ calcHash key := {| fdata := data; modTime := written |} ]};
     dirs := {[cacheDir]}; wfault := ∅; now := t;
     promCounters := ∅; promSummaries := []; fetched := [] |}.

(** A disk on which the backing file of [key] cannot be written. *)
Definition readOnlyWorld (key : string) (t : Z) : World :=
  {| files := ∅; dirs := {[cacheDir]};
     wfault := {[ cacheDir ++ calcHash key := None ]}; now := t;
     promCounters := ∅; promSummaries := []; fetched := [] |}.

(** The cache as [CreateCache] makes it over an empty directory. *)
Definition emptyCache : Cache :=
  {| folder := cacheDir; knownValues := ∅; busyValues := ∅ |}.

(** The cache once [has] has handed out the permit for [key]: mutex 0,
    locked. *)
Definition fillingCache (key : string) : Cache :=
  {| folder := cacheDir; knownValues := ∅; busyValues := {[ calcHash key := O ]} |}.

(** A cache that knows [key] as a disk-only entry. *)
Definition diskEntryCache (key : string) : Cache :=
  {| folder := cacheDir; knownValues := {[ calcHash key := zeroKnownValues ]};
     busyValues := ∅ |}.


(** Six thousand bytes. *)
Definition sixThousand : list byte := replicate (60 * 100) "x"%byte.

(** ** Vocabulary for the properties of single functions *)

(** A digit of [hex.EncodeToString]. *)
Definition is_hex (c : ascii) : bool :=
  existsb (λ d, bool_decide (c = d)) (list_ascii_of_string "0123456789abcdef").

Definition is_octet (b : Z) : Prop := 0 ≤ b < 256.

(** The summary [get] observes for a response. *)
Definition tier_name (r : Response) : string :=
  match r with
  | FromFile _ => "CACHE_READ_FILE"
  | FromMemory _ => "CACHE_READ_MEMORY"
  end.

(** Between two worlds nothing differs but, possibly, the file at [path]. *)
Definition only_file_changed (path : string) (w w' : World) : Prop :=
  (∀ p, p ≠ path → files w' !! p = files w !! p)
  ∧ dirs w' = dirs w
  ∧ wfault w' = wfault w
  ∧ now w' = now w
  ∧ promCounters w' = promCounters w
  ∧ promSummaries w' = promSummaries w
  ∧ fetched w' = fetched w.

(** The world a refresh leaves: CACHE_TOO_OLD counted, the fetch recorded,
    and the files as the fetcher left them. *)
Definition after_fetch (requestedURL : string) (fs : gmap string File) (w : World) : World :=
  {| files := fs; dirs := dirs w; wfault := wfault w; now := now w;
     promCounters := promCounters (Inc "CACHE_TOO_OLD" w);
     promSummaries := promSummaries w;
     fetched := (fetched w ++ [requestedURL])%list |}.

(** A fetcher that succeeds and rewrites one file with [data]. *)
Definition rewritingRemote (path : string) (data : list byte)
    (url : string) (w : World) : option error * gmap string File :=
  (None, <[path := {| fdata := data; modTime := now w |}]> (files w)).

Definition fresh : list byte := list_byte_of_string "fresh bytes".

(** A cache that holds [data] in memory for [key]. *)
Definition memoryEntryCache (key : string) (data : list byte) : Cache :=
  {| folder := cacheDir;
     knownValues := {[ calcHash key := {| loadedAt := 0; content := Some data |} ]};
     busyValues := ∅ |}.
(** * Properties *)

(** ** The key hasher on the standard test vectors *)

Example calcHash_abc :
  calcHash "abc" = "ba7816bf8f01cfea414140de5dae2223b00361a396177a9cb410ff61f20015ad".
Proof. vm_compute. reflexivity. Qed.

Example calcHash_empty :
  calcHash "" = "e3b0c44298fc1c149afbf4c8996fb92427ae41e4649b934ca495991b7852b855".
Proof. vm_compute. reflexivity. Qed.

Example calcHash_two_blocks :
  calcHash "aaaaaaaaaaaaaaaaaaaaaaaaaaaaaaaaaaaaaaaaaaaaaaaaaaaaaaaa"
  = "b35439a4ac6f0948b6d6f9e3c6af0f5f590ce20f1bde7090ef7970686ec6738a".
Proof. vm_compute. reflexivity. Qed.


Example sha256_constants :
  length Sha256.primes = 64%nat
  ∧ last Sha256.primes = Some 311
  ∧ head Sha256.K = Some 0x428a2f98
  ∧ last Sha256.K = Some 0xc67178f2
  ∧ head Sha256.H0 = Some 0x6a09e667.
Proof. vm_compute. repeat split. Qed.
(** ** The TTL policy *)

Section Policy.

Variable E : Env.

Lemma ruleTTL_find rules cacheURL ttl :
  Forall (compiles E) rules →
  ruleTTL E rules cacheURL ttl
  = Returns (match find (ruleMatches E cacheURL) rules with
             | Some rule => TTL rule.2
             | None => ttl
             end).
Proof.
  induction 1 as [|[name cr] rest [r Hr] _ IH]; [reflexivity|].
  simpl in Hr. cbn [ruleTTL find]. unfold MustCompile, ruleMatches at 1.
  cbn [snd]. rewrite Hr.
  destruct (MatchString E r cacheURL); [reflexivity | exact IH].
Qed.

(** Whenever the loop returns, it returns what the policy says. *)
Lemma ruleTTL_returns_policy rules cacheURL ttl t :
  ruleTTL E rules cacheURL ttl = Returns t →
  t = match find (ruleMatches E cacheURL) rules with
      | Some rule => TTL rule.2
      | None => ttl
      end.
Proof.
  induction rules as [|[name cr] rest IH]; cbn [ruleTTL find].
  - intros [= <-]. reflexivity.
  - unfold MustCompile, ruleMatches at 1. cbn [snd].
    destruct (Compile E (Regex cr)) as [r|]; [|discriminate].
    destruct (MatchString E r cacheURL); [|exact IH].
    intros [= <-]. reflexivity.
Qed.

(** X19. The loop stops at the first match: when the rules before a rule
    compile and do not match the key and that rule matches, its TTL is
    returned whatever follows it in the list - later rules are not looked
    at, not even compiled, so a pattern there that is no regular
    expression causes no panic. *)
Lemma ruleTTL_first_match pre name cr post r cacheURL ttl :
  Forall (λ rule, compiles E rule ∧ ruleMatches E cacheURL rule = false) pre →
  Compile E (Regex cr) = Some r →
  MatchString E r cacheURL = true →
  ruleTTL E (pre ++ (name, cr) :: post) cacheURL ttl = Returns (TTL cr).
Proof.
  intros Hpre Hr Hm.
  induction Hpre as [|[n c] pre [[r' Hc] Hn] _ IH]; cbn [app ruleTTL].
  - unfold MustCompile. rewrite Hr, Hm. reflexivity.
  - simpl in Hc. unfold ruleMatches in Hn. cbn [snd] in Hn. rewrite Hc in Hn.
    unfold MustCompile. rewrite Hc, Hn. exact IH.
Qed.

(** The loop panics at the first rule it reaches whose pattern does not
    compile. *)
Lemma ruleTTL_panics pre name cr post cacheURL ttl :
  Forall (λ rule, compiles E rule ∧ ruleMatches E cacheURL rule = false) pre →
  Compile E (Regex cr) = None →
  ruleTTL E (pre ++ (name, cr) :: post) cacheURL ttl
  = Panics ("regexp: Compile(" ++ Regex cr ++ ")").
Proof.
  intros Hpre Hr.
  induction Hpre as [|[n c] pre [[r' Hc] Hn] _ IH]; cbn [app ruleTTL].
  - unfold MustCompile. rewrite Hr. reflexivity.
  - simpl in Hc. unfold ruleMatches in Hn. cbn [snd] in Hn. rewrite Hc in Hn.
    unfold MustCompile. rewrite Hc, Hn. exact IH.
Qed.

End Policy.


(** ** The read path *)

Section ReadPath.

Variable E : Env.

Lemma counter_Inc_same name w : counter name (Inc name w) = S (counter name w).
Proof. unfold counter, Inc; simpl. rewrite lookup_insert_eq. reflexivity. Qed.

Lemma counter_Inc_other name name' w :
  name ≠ name' → counter name' (Inc name w) = counter name' w.
Proof. intros Hne. unfold counter, Inc; simpl. rewrite lookup_insert_ne; done. Qed.

(** C6. For a backing file with modification time mtime and effective TTL
    ttl, checkCacheTTL calls the remote fetch, once and with the requested
    URL, and counts CACHE_TOO_OLD exactly when the current time is after
    mtime + ttl, and then returns whatever the fetch returned, its error
    included; otherwise it counts CACHE_OK and returns nil without
    fetching. *)
Theorem checkCacheTTL_refresh_iff_expired filePath cacheURL requestedURL w fi ttl :
  Stat filePath w = inr fi →
  ruleTTL E (CacheRules (config E)) cacheURL (DefaultCacheTTL (config E)) = Returns ttl →
  let res := checkCacheTTL E filePath cacheURL requestedURL w in
  (modTime fi + ttl < now w →
     res.1 = Returns (GetRemote E requestedURL (Inc "CACHE_TOO_OLD" w)).1
     ∧ fetched res.2 = (fetched w ++ [requestedURL])%list
     ∧ files res.2 = (GetRemote E requestedURL (Inc "CACHE_TOO_OLD" w)).2
     ∧ counter "CACHE_TOO_OLD" res.2 = S (counter "CACHE_TOO_OLD" w)
     ∧ counter "CACHE_OK" res.2 = counter "CACHE_OK" w)
  ∧ (now w ≤ modTime fi + ttl →
     res.1 = Returns None
     ∧ fetched res.2 = fetched w
     ∧ files res.2 = files w
     ∧ counter "CACHE_OK" res.2 = S (counter "CACHE_OK" w)
     ∧ counter "CACHE_TOO_OLD" res.2 = counter "CACHE_TOO_OLD" w).
Proof.
  intros Hstat Httl res. subst res. unfold checkCacheTTL.
  rewrite Hstat, Httl. split; intros Hcmp.
  - apply Z.ltb_lt in Hcmp. rewrite Hcmp.
    destruct (GetRemote E requestedURL (Inc "CACHE_TOO_OLD" w)) as [err fs].
    cbn [fst snd fetched files]. repeat split.
    + apply (counter_Inc_same "CACHE_TOO_OLD" w).
    + apply (counter_Inc_other "CACHE_TOO_OLD" "CACHE_OK" w). discriminate.
  - apply Z.ltb_ge in Hcmp. rewrite Hcmp. cbn [fst snd]. repeat split.
    + apply counter_Inc_same.
    + apply counter_Inc_other. discriminate.
Qed.

(** When the backing file is missing the check returns the stat error
    before it looks at any rule. *)
Lemma checkCacheTTL_no_file filePath cacheURL requestedURL w :
  files w !! filePath = None →
  checkCacheTTL E filePath cacheURL requestedURL w
  = (Returns (Some (PathError "stat" filePath)), w).
Proof. intros Hf. unfold checkCacheTTL, Stat. rewrite Hf. reflexivity. Qed.

Lemma checkCacheTTL_fresh filePath cacheURL requestedURL w fi ttl :
  files w !! filePath = Some fi →
  ruleTTL E (CacheRules (config E)) cacheURL (DefaultCacheTTL (config E)) = Returns ttl →
  now w ≤ modTime fi + ttl →
  checkCacheTTL E filePath cacheURL requestedURL w = (Returns None, Inc "CACHE_OK" w).
Proof.
  intros Hf Httl Hcmp. unfold checkCacheTTL, Stat. rewrite Hf, Httl.
  apply Z.ltb_ge in Hcmp. rewrite Hcmp. reflexivity.
Qed.

Lemma checkCacheTTL_panics filePath cacheURL requestedURL w fi msg :
  files w !! filePath = Some fi →
  ruleTTL E (CacheRules (config E)) cacheURL (DefaultCacheTTL (config E)) = Panics msg →
  checkCacheTTL E filePath cacheURL requestedURL w = (Panics msg, w).
Proof.
  intros Hf Httl. unfold checkCacheTTL, Stat. rewrite Hf, Httl. reflexivity.
Qed.

(** The guard of cache.go:116 is never true: a key that is not in the map
    yields the zero value, whose content is nil. *)
Lemma not_known_guard_dead (c : Cache) hashValue :
  negb (bool_decide (is_Some (knownValues c !! hashValue)))
  && (0 <? len (content (default zeroKnownValues (knownValues c !! hashValue))))
  = false.
Proof.
  destruct (knownValues c !! hashValue) as [kv|]; cbn [default content zeroKnownValues len].
  - rewrite bool_decide_eq_true_2 by eauto. reflexivity.
  - apply andb_false_r.
Qed.

(** Both branches of get start with the freshness check on the same file. *)
Lemma get_after_check c requestedURL cacheURL w :
  removeSchemeFromURL E requestedURL = inr cacheURL →
  ∀ msg w1,
    checkCacheTTL E (folder c ++ calcHash cacheURL) cacheURL requestedURL w
    = (Panics msg, w1) →
    get E c requestedURL w = (Panics msg, w1).
Proof.
  intros Hurl msg w1 Hchk. unfold get. rewrite Hurl, not_known_guard_dead.
  destruct (content (default zeroKnownValues (knownValues c !! calcHash cacheURL)));
    rewrite Hchk; reflexivity.
Qed.

(** C10. If a configured TTL rule reached by the loop (every rule before it
    compiles and does not match the key) has a pattern that does not
    compile, checkCacheTTL panics in regexp.MustCompile instead of
    returning an error, and so does get, whatever the cache holds for the
    key (memory tier or disk-only tier). *)
Theorem get_panics_on_invalid_rule c requestedURL cacheURL w fi pre name cr post :
  removeSchemeFromURL E requestedURL = inr cacheURL →
  Stat (folder c ++ calcHash cacheURL) w = inr fi →
  CacheRules (config E) = (pre ++ (name, cr) :: post)%list →
  Forall (λ rule, compiles E rule ∧ ruleMatches E cacheURL rule = false) pre →
  Compile E (Regex cr) = None →
  ∃ msg,
    checkCacheTTL E (folder c ++ calcHash cacheURL) cacheURL requestedURL w = (Panics msg, w)
    ∧ get E c requestedURL w = (Panics msg, w).
Proof.
  intros Hurl Hstat Hrules Hpre Hbad.
  exists ("regexp: Compile(" ++ Regex cr ++ ")").
  assert (Hchk : checkCacheTTL E (folder c ++ calcHash cacheURL) cacheURL requestedURL w
                 = (Panics ("regexp: Compile(" ++ Regex cr ++ ")"), w)).
  { unfold Stat in Hstat.
    destruct (files w !! (folder c ++ calcHash cacheURL)) as [f|] eqn:Hf; [|discriminate].
    apply (checkCacheTTL_panics _ _ _ _ f); [exact Hf|].
    rewrite Hrules. apply ruleTTL_panics; assumption. }
  split; [exact Hchk|]. apply (get_after_check _ _ cacheURL); assumption.
Qed.

(** X16. With every configured pattern compiling, get never panics: on
    every cache, URL and world it returns, with a response or an error. *)
Lemma get_returns_when_rules_compile c requestedURL w :
  Forall (compiles E) (CacheRules (config E)) →
  ∃ res w', get E c requestedURL w = (Returns res, w').
Proof.
  intros Hc. unfold get.
  destruct (removeSchemeFromURL E requestedURL) as [err|cacheURL]; [eauto|].
  rewrite not_known_guard_dead. unfold checkCacheTTL.
  rewrite (ruleTTL_find E _ cacheURL _ Hc).
  repeat case_match; simplify_eq; eauto.
Qed.

(** C2. For a requested URL whose identifier is not in the known-set, get
    does not return the "not known to cache" error: it goes on to the
    backing file, and with no such file it returns the error of os.Stat. *)
Theorem get_unknown_key_reads_backing_file c requestedURL cacheURL w :
  removeSchemeFromURL E requestedURL = inr cacheURL →
  knownValues c !! calcHash cacheURL = None →
  files w !! (folder c ++ calcHash cacheURL) = None →
  get E c requestedURL w
  = (Returns (inl (PathError "stat" (folder c ++ calcHash cacheURL))), w).
Proof.
  intros Hurl Hk Hf. unfold get. rewrite Hurl, not_known_guard_dead, Hk. cbn.
  rewrite checkCacheTTL_no_file by exact Hf. reflexivity.
Qed.

End ReadPath.

(** The spec's boundary example: written at T, TTL 5s.  Read at T+6s, the
    entry is refreshed by one fetch, whose error is returned. *)
Lemma checkCacheTTL_refresh_iff_expired_witness :
  let E := litEnv failingRemote plainConfig in
  let T := 100 * Second in
  let w := storedWorld exampleKey hello T (T + 6 * Second) in
  let path := cacheDir ++ calcHash exampleKey in
  Stat path w = inr {| fdata := hello; modTime := T |}
  ∧ ruleTTL E (CacheRules (config E)) exampleKey (DefaultCacheTTL (config E))
    = Returns (5 * Second)
  ∧ (checkCacheTTL E path exampleKey exampleURL w).1 = Returns (Some (FetchError exampleURL))
  ∧ fetched (checkCacheTTL E path exampleKey exampleURL w).2 = [exampleURL]
  ∧ counter "CACHE_TOO_OLD" (checkCacheTTL E path exampleKey exampleURL w).2 = 1%nat
  ∧ counter "CACHE_OK" (checkCacheTTL E path exampleKey exampleURL w).2 = 0%nat.
Proof.
  intros E T w path.
  assert (Hstat : Stat path w = inr {| fdata := hello; modTime := T |})
    by (vm_compute; reflexivity).
  assert (Httl : ruleTTL E (CacheRules (config E)) exampleKey (DefaultCacheTTL (config E))
                 = Returns (5 * Second)) by reflexivity.
  split; [exact Hstat|]. split; [exact Httl|].
  destruct (checkCacheTTL_refresh_iff_expired E path exampleKey exampleURL w _ _ Hstat Httl)
    as [Hold _].
  destruct Hold as (Hres & Hfetched & _ & Hold & Hok).
  { vm_compute. reflexivity. }
  split; [exact Hres|]. split; [exact Hfetched|]. split; [|exact Hok].
  etrans; [exact Hold|]. reflexivity.
Defined.

(** Read at T+4s, the same entry is served without a fetch. *)
Example checkCacheTTL_fresh_at_4s :
  let E := litEnv failingRemote plainConfig in
  let T := 100 * Second in
  let w := storedWorld exampleKey hello T (T + 4 * Second) in
  let res := checkCacheTTL E (cacheDir ++ calcHash exampleKey) exampleKey exampleURL w in
  res.1 = Returns None ∧ fetched res.2 = []
  ∧ counter "CACHE_OK" res.2 = 1%nat ∧ counter "CACHE_TOO_OLD" res.2 = 0%nat.
Proof. vm_compute. repeat split. Qed.

Lemma get_panics_on_invalid_rule_witness :
  let E := litEnv idleRemote brokenRules in
  let url := "http://example.com/docs/x" in
  let key := "example.com/docs/x" in
  let w := storedWorld key hello 0 0 in
  removeSchemeFromURL E url = inr key
  ∧ Compile E "(" = None
  ∧ ∃ msg,
      checkCacheTTL E (cacheDir ++ calcHash key) key url w = (Panics msg, w)
      ∧ get E (diskEntryCache key) url w = (Panics msg, w).
Proof.
  intros E url key w.
  split; [reflexivity|]. split; [reflexivity|].
  apply (get_panics_on_invalid_rule E (diskEntryCache key) url key w
           {| fdata := hello; modTime := 0 |}
           [("a", {| Regex := "^/images/"; TTL := 10 * Second |})]
           "b" {| Regex := "("; TTL := Hour |} []);
    try reflexivity.
  repeat constructor. vm_compute. eauto.
Defined.

(** A URL the cache has never seen, on an empty disk: get answers with the
    error of os.Stat on the backing file. *)
Lemma get_unknown_key_reads_backing_file_witness :
  let E := litEnv idleRemote plainConfig in
  let w := emptyWorld cacheDir 0 in
  removeSchemeFromURL E exampleURL = inr exampleKey
  ∧ knownValues emptyCache !! calcHash exampleKey = None
  ∧ files w !! (cacheDir ++ calcHash exampleKey) = None
  ∧ get E emptyCache exampleURL w
    = (Returns (inl (PathError "stat" (cacheDir ++ calcHash exampleKey))), w).
Proof.
  intros E w.
  split; [reflexivity|]. split; [reflexivity|]. split; [reflexivity|].
  apply (get_unknown_key_reads_backing_file E emptyCache exampleURL exampleKey w);
    reflexivity.
Defined.

(** ** The TTL the freshness check uses *)





(** ** The constructor *)

(** C9. For every folder path, CreateCache returns a nil error and a cache
    over that folder with no busy marker; when the directory cannot be
    read it calls os.Mkdir on the path, whose result it ignores, and the
    known-set is empty. *)
Theorem CreateCache_never_fails path w :
  (CreateCache path w).1.2 = None
  ∧ folder (CreateCache path w).1.1 = path
  ∧ busyValues (CreateCache path w).1.1 = ∅
  ∧ ((ReadDir path w).2 ≠ None →
       knownValues (CreateCache path w).1.1 = ∅
       ∧ (CreateCache path w).2 = (Mkdir path w).2).
Proof.
  unfold CreateCache, ReadDir.
  destruct (bool_decide (path ∈ dirs w)); cbn [fst snd].
  - split; [reflexivity|]. split; [reflexivity|]. split; [reflexivity|].
    intros Hne. congruence.
  - split; [reflexivity|]. split; [reflexivity|]. split; [reflexivity|].
    intros _. split; reflexivity.
Qed.

(** An os.Mkdir that nothing prevents leaves the directory in place. *)
Lemma Mkdir_makes path w :
  path ∉ dirs w → wfault w !! path = None → path ∈ dirs (Mkdir path w).2.
Proof.
  intros Hnew Hok. unfold Mkdir.
  rewrite bool_decide_eq_false_2 by exact Hnew. rewrite Hok. cbn. set_solver.
Qed.

Lemma CreateCache_never_fails_witness :
  (ReadDir cacheDir (emptyWorld "elsewhere/" 0)).2 ≠ None
  ∧ (CreateCache cacheDir (emptyWorld "elsewhere/" 0)).1.2 = None
  ∧ knownValues (CreateCache cacheDir (emptyWorld "elsewhere/" 0)).1.1 = ∅
  ∧ cacheDir ∈ dirs (CreateCache cacheDir (emptyWorld "elsewhere/" 0)).2.
Proof.
  assert (Herr : (ReadDir cacheDir (emptyWorld "elsewhere/" 0)).2 ≠ None)
    by (vm_compute; discriminate).
  destruct (CreateCache_never_fails cacheDir (emptyWorld "elsewhere/" 0))
    as (Hnil & _ & _ & Hempty).
  destruct (Hempty Herr) as [Hknown Hdir].
  split; [exact Herr|]. split; [exact Hnil|]. split; [exact Hknown|].
  rewrite Hdir. apply Mkdir_makes; [|reflexivity].
  cbn. intros Hin. apply elem_of_singleton in Hin. discriminate.
Defined.

(** A directory that can be read: its files, and not its subdirectories,
    make the known-set, with no content loaded. *)
Example CreateCache_scans_files :
  let w := {| files := {[ "cache/aa" := {| fdata := hello; modTime := 1 |};
                          "cache/sub/bb" := {| fdata := hello; modTime := 2 |};
                          "other/cc" := {| fdata := hello; modTime := 3 |} ]};
              dirs := {[ "cache/"; "cache/sub"; "other/" ]};
              wfault := ∅; now := 5; promCounters := ∅; promSummaries := [];
              fetched := [] |} in
  CreateCache "cache/" w
  = ({| folder := "cache/"; knownValues := {[ "aa" := zeroKnownValues ]};
        busyValues := ∅ |}, None, w).
Proof. vm_compute. reflexivity. Qed.

(** ** The fill path *)

Lemma Create_ok path w :
  wfault w !! path = None →
  Create path w
  = (None, with_files (<[path := {| fdata := []; modTime := now w |}]> (files w)) w).
Proof. intros Hf. unfold Create. rewrite Hf. reflexivity. Qed.

Lemma Write_ok path p w :
  wfault w !! path = None →
  Write path p w
  = (None,
     with_files (<[path := {| fdata := (default [] (fdata <$> files w !! path) ++ p)%list;
                              modTime := now w |}]> (files w)) w).
Proof. intros Hf. unfold Write. rewrite Hf. reflexivity. Qed.

Lemma WriteFile_ok path data w :
  wfault w !! path = None →
  WriteFile path data w
  = (None, with_files (<[path := {| fdata := data; modTime := now w |}]> (files w)) w).
Proof.
  intros Hf. unfold WriteFile. rewrite (Create_ok _ _ Hf).
  rewrite Write_ok by exact Hf. cbn [files with_files now].
  rewrite lookup_insert_eq, insert_insert_eq. reflexivity.
Qed.

Section FillPath.

Variable E : Env.

(** X10. Which deferred calls a return of put runs.  On the memory-tier
    path (contentLength at most the threshold) whose read fails: none, and
    the read error is what put returns.  On the memory-tier path whose read
    succeeds: exactly one release, for calcHash(key), with the buffered
    bytes and the time of the call, whatever the file write does.  On the
    disk-only path: exactly one release, for calcHash(key), with nil
    content and the time of the call, whatever os.Create and the copy
    do. *)
Lemma put_body_defers c key r contentLength w :
  (put_body E c key r contentLength w).1.2
  = (if contentLength <=? sizeThreshold E then
       match rerr r with
       | Some _ => []
       | None => [Release (calcHash key) (copyToBuffer r).1 (now w)]
       end
     else [Release (calcHash key) None (now w)])
  ∧ (contentLength ≤ sizeThreshold E → is_Some (rerr r) →
     (put_body E c key r contentLength w).1.1 = rerr r).
Proof.
  unfold put_body. split.
  - destruct (contentLength <=? sizeThreshold E).
    + unfold copyToBuffer. destruct (rerr r) as [e|]; [reflexivity|]. cbn [fst].
      destruct (WriteFile _ _ w) as [[e|] w']; reflexivity.
    + destruct (Create _ w) as [[e|] w']; [reflexivity|].
      destruct (copyToFile _ r w') as [[e|] w'']; reflexivity.
  - intros Htier [e He]. apply Z.leb_le in Htier. rewrite Htier.
    unfold copyToBuffer. rewrite He. reflexivity.
Qed.

(** C3. On the memory-tier path of put (contentLength at most the
    threshold), when reading the input stream fails put returns the error
    with no deferred call registered: release is not invoked, and the cache,
    busy marker included, is left as it was. *)
Theorem put_read_failure_skips_release c key r contentLength w err :
  contentLength ≤ sizeThreshold E →
  rerr r = Some err →
  put_body E c key r contentLength w = (Some err, [], w)
  ∧ put E c key r contentLength w = (Some err, c, w).
Proof.
  intros Htier Herr. apply Z.leb_le in Htier.
  assert (Hbody : put_body E c key r contentLength w = (Some err, [], w)).
  { unfold put_body, copyToBuffer. rewrite Htier, Herr. reflexivity. }
  split; [exact Hbody|]. unfold put. rewrite Hbody. reflexivity.
Qed.

(** The sibling path: above the threshold the release is deferred before
    anything can fail, so a failing read still runs it. *)
Lemma put_disk_read_failure_releases c key r contentLength w :
  sizeThreshold E < contentLength →
  (put E c key r contentLength w).1.2 = release (calcHash key) None (now w) c.
Proof.
  intros Htier. apply Z.leb_gt in Htier. unfold put, put_body. rewrite Htier.
  destruct (Create _ w) as [[e|] w']; [reflexivity|].
  destruct (copyToFile _ r w') as [[e|] w'']; reflexivity.
Qed.

Lemma has_after_release key content loadedAt c m :
  has key (release (calcHash key) content loadedAt c) m
  = Done ((None, true), release (calcHash key) content loadedAt c, m).
Proof.
  unfold has. cbn [release busyValues]. rewrite lookup_delete_eq.
  unfold has_decide. cbn [release knownValues]. rewrite lookup_insert_eq. reflexivity.
Qed.

(** C4, as the code has it.  If the memory-tier file write of put fails,
    the error is returned and the deferred release still runs: the busy
    marker is removed, the known-set records the buffered content, and a
    following call of has for the same key returns found = true without
    waiting. *)
Theorem put_write_failure_still_records c key r contentLength w m buffer err w' :
  contentLength ≤ sizeThreshold E →
  copyToBuffer r = (buffer, None) →
  WriteFile (folder c ++ calcHash key) (slice_bytes buffer) w = (Some err, w') →
  let c' := release (calcHash key) buffer (now w) c in
  put E c key r contentLength w = (Some err, c', w')
  ∧ busyValues c' !! calcHash key = None
  ∧ knownValues c' !! calcHash key = Some {| loadedAt := now w; content := buffer |}
  ∧ has key c' m = Done ((None, true), c', m).
Proof.
  intros Htier Hbuf Hwrite c'. apply Z.leb_le in Htier.
  split; [|split; [|split]].
  - unfold put, put_body. rewrite Htier, Hbuf, Hwrite. reflexivity.
  - apply lookup_delete_eq.
  - apply lookup_insert_eq.
  - apply has_after_release.
Qed.

End FillPath.

Lemma put_read_failure_skips_release_witness :
  let E := litEnv idleRemote plainConfig in
  let w := emptyWorld cacheDir 0 in
  5 ≤ sizeThreshold E
  ∧ rerr (brokenReader hello) = Some (ReadError "unexpected EOF")
  ∧ put E (fillingCache exampleKey) exampleKey (brokenReader hello) 5 w
    = (Some (ReadError "unexpected EOF"), fillingCache exampleKey, w)
  ∧ busyValues (put E (fillingCache exampleKey) exampleKey (brokenReader hello) 5 w).1.2
      !! calcHash exampleKey = Some O.
Proof.
  intros E w.
  assert (Htier : 5 ≤ sizeThreshold E) by (vm_compute; discriminate).
  destruct (put_read_failure_skips_release E (fillingCache exampleKey) exampleKey
              (brokenReader hello) 5 w (ReadError "unexpected EOF") Htier eq_refl)
    as [_ Hput].
  split; [exact Htier|]. split; [reflexivity|]. split; [exact Hput|].
  rewrite Hput. cbn [fst snd]. apply lookup_singleton_eq.
Defined.

(** C4 does not hold as stated: the write of the backing file fails,
    put returns the error, and yet the known-set holds the in-memory entry
    and the next has for the key answers found = true. *)
Lemma put_write_failure_counterexample :
  let E := litEnv idleRemote plainConfig in
  let w := readOnlyWorld exampleKey 7 in
  let path := cacheDir ++ calcHash exampleKey in
  let c' := {| folder := cacheDir;
               knownValues := {[ calcHash exampleKey :=
                                   {| loadedAt := 7; content := Some hello |} ]};
               busyValues := ∅ |} in
  put E (fillingCache exampleKey) exampleKey (bodyReader hello) 5 w
  = (Some (PathError "open" path), c', w)
  ∧ files w !! path = None
  ∧ has exampleKey c' [false] = Done ((None, true), c', [false]).
Proof. vm_compute. repeat split. Qed.

Lemma put_write_failure_still_records_witness :
  let E := litEnv idleRemote plainConfig in
  let w := readOnlyWorld exampleKey 7 in
  let path := cacheDir ++ calcHash exampleKey in
  let c' := release (calcHash exampleKey) (Some hello) 7 (fillingCache exampleKey) in
  5 ≤ sizeThreshold E
  ∧ copyToBuffer (bodyReader hello) = (Some hello, None)
  ∧ WriteFile path hello w = (Some (PathError "open" path), w)
  ∧ put E (fillingCache exampleKey) exampleKey (bodyReader hello) 5 w
    = (Some (PathError "open" path), c', w)
  ∧ has exampleKey c' [false] = Done ((None, true), c', [false]).
Proof.
  intros E w path c'.
  assert (Htier : 5 ≤ sizeThreshold E) by (vm_compute; discriminate).
  assert (Hbuf : copyToBuffer (bodyReader hello) = (Some hello, None)) by reflexivity.
  assert (Hwrite : WriteFile (folder (fillingCache exampleKey) ++ calcHash exampleKey)
                     (slice_bytes (Some hello)) w = (Some (PathError "open" path), w))
    by (vm_compute; reflexivity).
  destruct (put_write_failure_still_records E (fillingCache exampleKey) exampleKey
              (bodyReader hello) 5 w [false] (Some hello) (PathError "open" path) w
              Htier Hbuf Hwrite) as (Hput & _ & _ & Hhas).
  split; [exact Htier|]. split; [exact Hbuf|]. split; [exact Hwrite|].
  split; [exact Hput | exact Hhas].
Defined.

(** ** The buffered writer of the disk-only path *)

Lemma Write_file path p w : is_Some (files (Write path p w).2 !! path).
Proof.
  unfold Write. destruct (wfault w !! path) as [[k|]|]; [destruct (_ <=? _)%nat| |];
    cbn [snd files with_files]; rewrite lookup_insert_eq; eauto.
Qed.

Lemma only_file_changed_refl path w : only_file_changed path w w.
Proof. unfold only_file_changed. auto 10. Qed.

Lemma only_file_changed_trans path w1 w2 w3 :
  only_file_changed path w1 w2 → only_file_changed path w2 w3 →
  only_file_changed path w1 w3.
Proof.
  intros (Hf & Hd & Hw & Hn & Hc & Hs & Hfe) (Hf' & Hd' & Hw' & Hn' & Hc' & Hs' & Hfe').
  unfold only_file_changed.
  split; [intros p Hp; rewrite (Hf' p Hp); exact (Hf p Hp)|].
  repeat split; congruence.
Qed.

Lemma with_files_insert_frame path f w :
  only_file_changed path w (with_files (<[path := f]> (files w)) w).
Proof.
  unfold only_file_changed. cbn.
  split; [intros p Hp; apply lookup_insert_ne; congruence | auto 10].
Qed.

Lemma Create_frame path w : only_file_changed path w (Create path w).2.
Proof.
  unfold Create. destruct (wfault w !! path) as [[k|]|]; cbn [snd];
    first [apply with_files_insert_frame | apply only_file_changed_refl].
Qed.

Lemma Write_frame path p w : only_file_changed path w (Write path p w).2.
Proof.
  unfold Write. destruct (wfault w !! path) as [[k|]|]; [destruct (_ <=? _)%nat| |];
    cbn [snd]; apply with_files_insert_frame.
Qed.

Lemma WriteFile_frame path data w : only_file_changed path w (WriteFile path data w).2.
Proof.
  unfold WriteFile. pose proof (Create_frame path w) as Hc.
  destruct (Create path w) as [[e|] w1]; cbn [snd] in Hc |- *; [exact Hc|].
  apply (only_file_changed_trans _ _ w1); [exact Hc | apply Write_frame].
Qed.

Lemma Create_file path w :
  (Create path w).1 = None → is_Some (files (Create path w).2 !! path).
Proof.
  unfold Create. destruct (wfault w !! path) as [[k|]|]; cbn [fst snd];
    try discriminate; intros _; cbn [files with_files]; rewrite lookup_insert_eq; eauto.
Qed.

Lemma bufioWrite_file path p buf w :
  is_Some (files w !! path) → is_Some (files (bufioWrite path p buf w).2 !! path).
Proof.
  intros Hfile. unfold bufioWrite.
  destruct (length p <=? bufioSize - length buf)%nat; [exact Hfile|].
  destruct buf as [|b buf].
  - pose proof (Write_file path p w) as Hw.
    destruct (Write path p w) as [e w']. exact Hw.
  - pose proof (Write_file path ((b :: buf) ++ take (bufioSize - length (b :: buf)) p) w)
      as Hw.
    destruct (Write path _ w) as [[e|] w']; [exact Hw|]. cbn [snd] in Hw.
    destruct (length _ <=? bufioSize)%nat; [exact Hw|].
    pose proof (Write_file path (drop (bufioSize - length (b :: buf)) p) w') as Hw'.
    destruct (Write path _ w') as [e w'']. exact Hw'.
Qed.

Lemma writePieces_file path ps buf w :
  is_Some (files w !! path) → is_Some (files (writePieces path ps buf w).2 !! path).
Proof.
  revert buf w. induction ps as [|p ps IH]; intros buf w Hfile; cbn [writePieces];
    [exact Hfile|].
  pose proof (bufioWrite_file path p buf w Hfile) as Hw.
  destruct (bufioWrite path p buf w) as [[[e|] buf'] w']; [exact Hw|].
  apply IH. exact Hw.
Qed.

Lemma copyToFile_file path r w :
  is_Some (files w !! path) → is_Some (files (copyToFile path r w).2 !! path).
Proof.
  intros Hfile. unfold copyToFile. destruct (rWriterTo r).
  - pose proof (writePieces_file path (pieces (rcuts r) (rdata r)) [] w Hfile) as Hw.
    destruct (writePieces path _ [] w) as [[[e|] buf'] w']; exact Hw.
  - pose proof (Write_file path (rdata r) w) as Hw.
    destruct (Write path (rdata r) w) as [[e|] w']; exact Hw.
Qed.

Lemma bufioWrite_frame path p buf w :
  only_file_changed path w (bufioWrite path p buf w).2.
Proof.
  unfold bufioWrite.
  destruct (length p <=? bufioSize - length buf)%nat; [apply only_file_changed_refl|].
  destruct buf as [|b buf].
  - pose proof (Write_frame path p w) as Hw.
    destruct (Write path p w) as [e w']. exact Hw.
  - pose proof (Write_frame path ((b :: buf) ++ take (bufioSize - length (b :: buf)) p) w)
      as Hw.
    destruct (Write path _ w) as [[e|] w']; [exact Hw|]. cbn [snd] in Hw.
    destruct (length _ <=? bufioSize)%nat; [exact Hw|].
    pose proof (Write_frame path (drop (bufioSize - length (b :: buf)) p) w') as Hw'.
    destruct (Write path _ w') as [e w'']. cbn [snd] in Hw' |- *.
    exact (only_file_changed_trans _ _ _ _ Hw Hw').
Qed.

Lemma writePieces_frame path ps buf w :
  only_file_changed path w (writePieces path ps buf w).2.
Proof.
  revert buf w. induction ps as [|p ps IH]; intros buf w; cbn [writePieces];
    [apply only_file_changed_refl|].
  pose proof (bufioWrite_frame path p buf w) as Hw.
  destruct (bufioWrite path p buf w) as [[[e|] buf'] w']; [exact Hw|]. cbn [snd] in Hw.
  exact (only_file_changed_trans _ _ _ _ Hw (IH buf' w')).
Qed.

Lemma copyToFile_frame path r w : only_file_changed path w (copyToFile path r w).2.
Proof.
  unfold copyToFile. destruct (rWriterTo r).
  - pose proof (writePieces_frame path (pieces (rcuts r) (rdata r)) [] w) as Hw.
    destruct (writePieces path _ [] w) as [[[e|] buf'] w']; exact Hw.
  - pose proof (Write_frame path (rdata r) w) as Hw.
    destruct (Write path (rdata r) w) as [[e|] w']; exact Hw.
Qed.

(** On a file that takes every write, the copy as a function of the bytes
    written so far. *)
Section WritableFile.

Variables (path : string) (w : World).
Hypothesis Hok : wfault w !! path = None.

Lemma Create_written : Create path w = (None, written path [] w).
Proof. unfold Create. rewrite Hok. reflexivity. Qed.

Lemma Write_written data p :
  Write path p (written path data w) = (None, written path (data ++ p) w).
Proof.
  unfold Write, written. cbn [wfault files with_files now]. rewrite Hok.
  rewrite lookup_insert_eq. cbn [fmap option_fmap option_map default fdata].
  unfold with_files. cbn [files dirs wfault now promCounters promSummaries fetched].
  rewrite insert_insert_eq. reflexivity.
Qed.

Lemma bufioWrite_written data p buf :
  ∃ data',
    bufioWrite path p buf (written path data w)
    = (None, bufferAfter p buf, written path data' w)
    ∧ (data' ++ bufferAfter p buf = data ++ buf ++ p)%list.
Proof.
  unfold bufioWrite, bufferAfter.
  destruct (length p <=? bufioSize - length buf)%nat.
  { exists data. split; reflexivity. }
  destruct buf as [|b buf].
  { rewrite Write_written. exists (data ++ p)%list. split; [reflexivity|].
    rewrite app_nil_r. reflexivity. }
  rewrite Write_written.
  destruct (length (drop (bufioSize - length (b :: buf)) p) <=? bufioSize)%nat.
  - eexists. split; [reflexivity|].
    rewrite <- !app_assoc. rewrite take_drop. reflexivity.
  - rewrite Write_written. eexists. split; [reflexivity|].
    rewrite app_nil_r, <- !app_assoc. rewrite take_drop. reflexivity.
Qed.

Lemma writePieces_written ps data buf :
  ∃ data',
    writePieces path ps buf (written path data w)
    = (None, fold_left (λ buf p, bufferAfter p buf) ps buf, written path data' w)
    ∧ (data' ++ fold_left (λ buf p, bufferAfter p buf) ps buf
       = data ++ buf ++ concat ps)%list.
Proof.
  revert data buf. induction ps as [|p ps IH]; intros data buf; cbn [writePieces fold_left].
  - exists data. split; [reflexivity|]. cbn. rewrite app_nil_r. reflexivity.
  - destruct (bufioWrite_written data p buf) as (data1 & -> & Hdata1).
    destruct (IH data1 (bufferAfter p buf)) as (data2 & -> & Hdata2).
    exists data2. split; [reflexivity|].
    rewrite Hdata2. cbn [concat]. rewrite !app_assoc. rewrite Hdata1.
    rewrite <- !app_assoc. reflexivity.
Qed.

End WritableFile.

Lemma pieces_concat cuts data : concat (pieces cuts data) = data.
Proof.
  revert data. induction cuts as [|k cuts IH]; intros data; cbn [pieces].
  - destruct data; [reflexivity|]. cbn. rewrite app_nil_r. reflexivity.
  - cbn [concat]. rewrite IH. apply take_drop.
Qed.

(** Without a write error, the file ends up with the stream's bytes less
    what the buffered writer still holds. *)
Lemma copyToFile_written path r w :
  wfault w !! path = None →
  ∃ data',
    copyToFile path r (written path [] w) = (rerr r, written path data' w)
    ∧ (data' ++ unflushed r = rdata r)%list.
Proof.
  intros Hok. unfold copyToFile, unflushed. destruct (rWriterTo r).
  - destruct (writePieces_written path w Hok (pieces (rcuts r) (rdata r)) [] [])
      as (data' & -> & Hdata).
    exists data'. split; [reflexivity|].
    rewrite Hdata, pieces_concat. reflexivity.
  - rewrite (Write_written path w Hok). exists (rdata r).
    split; [reflexivity | apply app_nil_r].
Qed.

(** ** Fill, then read *)

Section RoundTrip.

Variable E : Env.

Lemma get_disk_entry_fresh c url key w data mtime ttl :
  removeSchemeFromURL E url = inr key →
  content (default zeroKnownValues (knownValues c !! calcHash key)) = None →
  files w !! (folder c ++ calcHash key) = Some {| fdata := data; modTime := mtime |} →
  ruleTTL E (CacheRules (config E)) key (DefaultCacheTTL (config E)) = Returns ttl →
  now w ≤ mtime + ttl →
  get E c url w
  = (Returns (inr (FromFile (folder c ++ calcHash key))),
     Observe "CACHE_READ_FILE" (Z.of_nat (length data)) (Inc "CACHE_OK" w)).
Proof.
  intros Hurl Hnil Hfile Httl Hfresh. unfold get.
  rewrite Hurl, not_known_guard_dead, Hnil.
  rewrite (checkCacheTTL_fresh E _ _ _ _ _ ttl Hfile Httl) by exact Hfresh.
  unfold Open. cbn [files Inc]. rewrite Hfile.
  unfold Stat. cbn [files Inc]. rewrite Hfile. reflexivity.
Qed.

Lemma get_memory_entry_fresh c url key w bytes loadedAt fi ttl :
  removeSchemeFromURL E url = inr key →
  knownValues c !! calcHash key = Some {| loadedAt := loadedAt; content := Some bytes |} →
  files w !! (folder c ++ calcHash key) = Some fi →
  ruleTTL E (CacheRules (config E)) key (DefaultCacheTTL (config E)) = Returns ttl →
  now w ≤ modTime fi + ttl →
  get E c url w
  = (Returns (inr (FromMemory bytes)),
     Observe "CACHE_READ_MEMORY" (Z.of_nat (length bytes)) (Inc "CACHE_OK" w)).
Proof.
  intros Hurl Hk Hfile Httl Hfresh. unfold get.
  rewrite Hurl, not_known_guard_dead, Hk. cbn [default content].
  rewrite (checkCacheTTL_fresh E _ _ _ _ _ ttl Hfile Httl) by exact Hfresh.
  reflexivity.
Qed.

(** What a successful put leaves behind, tier by tier. *)
Lemma put_memory_ok c key r contentLength w :
  contentLength ≤ sizeThreshold E →
  rerr r = None →
  wfault w !! (folder c ++ calcHash key) = None →
  put E c key r contentLength w
  = (None,
     release (calcHash key) (copyToBuffer r).1 (now w) c,
     with_files (<[folder c ++ calcHash key :=
                     {| fdata := rdata r; modTime := now w |}]> (files w)) w).
Proof.
  intros Htier Herr Hw. apply Z.leb_le in Htier.
  unfold put, put_body. rewrite Htier. unfold copyToBuffer. rewrite Herr.
  rewrite WriteFile_ok by exact Hw.
  replace (slice_bytes _) with (rdata r); [reflexivity|].
  destruct (rWriterTo r); [|reflexivity]. cbn [andb].
  case_bool_decide as Hempty; [rewrite Hempty|]; reflexivity.
Qed.

Lemma put_disk_ok c key r contentLength w :
  sizeThreshold E < contentLength →
  rerr r = None →
  wfault w !! (folder c ++ calcHash key) = None →
  unflushed r = [] →
  put E c key r contentLength w
  = (None,
     release (calcHash key) None (now w) c,
     with_files (<[folder c ++ calcHash key :=
                     {| fdata := rdata r; modTime := now w |}]> (files w)) w).
Proof.
  intros Htier Herr Hw Hflush. apply Z.leb_gt in Htier.
  unfold put, put_body. rewrite Htier, (Create_written _ _ Hw).
  destruct (copyToFile_written (folder c ++ calcHash key) r w Hw) as (data' & -> & Hdata).
  rewrite Hflush, app_nil_r in Hdata. subst data'. rewrite Herr. reflexivity.
Qed.

(** C1, as the code has it.  For a key k that removeSchemeFromURL leaves
    unchanged and a stream that delivers the bytes b without error: if the
    backing file can be written, every TTL rule reached compiles, the
    entry is read while still fresh (not after mtime + ttl) and, on the
    disk-only path, the stream's writes leave nothing in put's buffered
    writer, which is never flushed, then put(k, stream, len(b)) returns nil
    and a following get(k) returns a stream whose bytes are b: the backing
    file on the disk-only path (length above the threshold), the in-memory
    copy on the memory path when the buffer is not nil. *)
Theorem put_get_roundtrip c k r b w t ttl :
  removeSchemeFromURL E k = inr k →
  rdata r = b →
  rerr r = None →
  wfault w !! (folder c ++ calcHash k) = None →
  ruleTTL E (CacheRules (config E)) k (DefaultCacheTTL (config E)) = Returns ttl →
  t ≤ now w + ttl →
  (sizeThreshold E < Z.of_nat (length b) → unflushed r = []) →
  ∃ c' w' resp w'',
    put E c k r (Z.of_nat (length b)) w = (None, c', w')
    ∧ get E c' k (with_now t w') = (Returns (inr resp), w'')
    ∧ readAll resp w'' = b
    ∧ (sizeThreshold E < Z.of_nat (length b) → resp = FromFile (folder c ++ calcHash k))
    ∧ (Z.of_nat (length b) ≤ sizeThreshold E → (copyToBuffer r).1 = Some b →
       resp = FromMemory b).
Proof.
  intros Hurl Hb Herr Hw Httl Hfresh Hflush. subst b.
  set (path := folder c ++ calcHash k).
  set (fs := <[path := {| fdata := rdata r; modTime := now w |}]> (files w)).
  assert (Hfile : files (with_now t (with_files fs w)) !! path
                  = Some {| fdata := rdata r; modTime := now w |})
    by apply lookup_insert_eq.
  destruct (Z_le_gt_dec (Z.of_nat (length (rdata r))) (sizeThreshold E)) as [Hmem|Hdisk].
  - (* memory tier *)
    pose proof (put_memory_ok c k r _ w Hmem Herr Hw) as Hput. fold path fs in Hput.
    destruct ((copyToBuffer r).1) as [bytes|] eqn:Hbuf.
    + assert (bytes = rdata r) as ->.
      { unfold copyToBuffer in Hbuf. cbn [fst] in Hbuf.
        destruct (rWriterTo r && bool_decide (rdata r = [])); congruence. }
      eexists _, _, (FromMemory (rdata r)), _.
      split; [exact Hput|]. split.
      * eapply (get_memory_entry_fresh (release (calcHash k) (Some (rdata r)) (now w) c));
          [exact Hurl | apply lookup_insert_eq | exact Hfile | exact Httl | exact Hfresh].
      * split; [reflexivity|]. split; [lia | reflexivity].
    + eexists _, _, (FromFile path), _.
      split; [exact Hput|]. split.
      * eapply (get_disk_entry_fresh (release (calcHash k) None (now w) c));
          [exact Hurl | | exact Hfile | exact Httl | exact Hfresh].
        cbn [release knownValues]. rewrite lookup_insert_eq. reflexivity.
      * split; [|split; [reflexivity | congruence]].
        cbn [readAll Observe Inc files]. fold path. rewrite Hfile. reflexivity.
  - (* disk-only tier *)
    assert (Hdisk' : sizeThreshold E < Z.of_nat (length (rdata r))) by lia.
    pose proof (put_disk_ok c k r _ w Hdisk' Herr Hw (Hflush Hdisk')) as Hput.
    fold path fs in Hput.
    eexists _, _, (FromFile path), _.
    split; [exact Hput|]. split.
    + eapply (get_disk_entry_fresh (release (calcHash k) None (now w) c));
        [exact Hurl | | exact Hfile | exact Httl | exact Hfresh].
      cbn [release knownValues]. rewrite lookup_insert_eq. reflexivity.
    + split; [|split; [reflexivity | lia]].
      cbn [readAll Observe Inc files]. fold path. rewrite Hfile. reflexivity.
Qed.

End RoundTrip.

(** C1 does not hold as stated: an entry filled at time T with a TTL
    of 5s and read at T+6s is stale, the refresh is attempted, and when the
    fetch fails get returns its error, not the stored bytes. *)
Lemma put_get_roundtrip_counterexample :
  let E := litEnv failingRemote plainConfig in
  let T := 100 * Second in
  let res := put E (fillingCache exampleKey) exampleKey (bodyReader hello) 5
                 (emptyWorld cacheDir T) in
  res.1.1 = None
  ∧ fdata <$> files res.2 !! (cacheDir ++ calcHash exampleKey) = Some hello
  ∧ content <$> knownValues res.1.2 !! calcHash exampleKey = Some (Some hello)
  ∧ (get E res.1.2 exampleKey (with_now (T + 6 * Second) res.2)).1
    = Returns (inl (FetchError exampleKey)).
Proof. vm_compute. repeat split. Qed.

(** Streams that leave nothing in the buffered writer: those without
    WriteTo, and those whose WriteTo makes one Write of more than the
    buffer holds. *)
Lemma unflushed_plain_reader r : rWriterTo r = false → unflushed r = [].
Proof. intros Hr. unfold unflushed. rewrite Hr. reflexivity. Qed.

Lemma unflushed_one_large_write r :
  rWriterTo r = true → rcuts r = [] → (bufioSize < length (rdata r))%nat →
  unflushed r = [].
Proof.
  intros Hr Hcuts Hlen. unfold unflushed. rewrite Hr, Hcuts. cbn [pieces].
  destruct (rdata r) as [|b data] eqn:Hdata; [reflexivity|].
  cbn [fold_left]. unfold bufferAfter.
  destruct (length (b :: data) <=? bufioSize - length [])%nat eqn:Hfits; [|reflexivity].
  apply Nat.leb_le in Hfits. cbn [length] in Hfits, Hlen. lia.
Qed.

(** Both tiers on five bytes: in memory under a threshold of 1 MiB, on disk
    only over a threshold of zero. *)
Lemma put_get_roundtrip_witness :
  let E := litEnv failingRemote plainConfig in
  let D := litEnv failingRemote diskOnlyConfig in
  let T := 100 * Second in
  let w := emptyWorld cacheDir T in
  removeSchemeFromURL E exampleKey = inr exampleKey
  ∧ T + 4 * Second ≤ now w + 5 * Second
  ∧ unflushed (bodyReader hello) = []
  ∧ (∃ c' w' resp w'',
      put E (fillingCache exampleKey) exampleKey (bodyReader hello) 5 w = (None, c', w')
      ∧ get E c' exampleKey (with_now (T + 4 * Second) w') = (Returns (inr resp), w'')
      ∧ readAll resp w'' = hello
      ∧ resp = FromMemory hello)
  ∧ (∃ c' w' resp w'',
      put D (fillingCache exampleKey) exampleKey (bodyReader hello) 5 w = (None, c', w')
      ∧ get D c' exampleKey (with_now (T + 4 * Second) w') = (Returns (inr resp), w'')
      ∧ readAll resp w'' = hello
      ∧ resp = FromFile (cacheDir ++ calcHash exampleKey)).
Proof.
  intros E D T w.
  assert (Hfresh : T + 4 * Second ≤ now w + 5 * Second) by (vm_compute; discriminate).
  split; [reflexivity|]. split; [exact Hfresh|]. split; [reflexivity|]. split.
  - destruct (put_get_roundtrip E (fillingCache exampleKey) exampleKey (bodyReader hello)
                hello w (T + 4 * Second) (5 * Second))
      as (c' & w' & resp & w'' & Hput & Hget & Hread & _ & Hmem);
      [reflexivity | reflexivity | reflexivity | reflexivity | reflexivity
       | exact Hfresh | intros _; reflexivity |].
    exists c', w', resp, w''.
    split; [exact Hput|]. split; [exact Hget|]. split; [exact Hread|].
    apply Hmem; [vm_compute; discriminate | reflexivity].
  - destruct (put_get_roundtrip D (fillingCache exampleKey) exampleKey (bodyReader hello)
                hello w (T + 4 * Second) (5 * Second))
      as (c' & w' & resp & w'' & Hput & Hget & Hread & Hdisk & _);
      [reflexivity | reflexivity | reflexivity | reflexivity | reflexivity
       | exact Hfresh | intros _; reflexivity |].
    exists c', w', resp, w''.
    split; [exact Hput|]. split; [exact Hget|]. split; [exact Hread|].
    apply Hdisk. vm_compute. reflexivity.
Defined.

(** The disk-only tier: the same five bytes over a threshold of zero. *)
Example put_get_roundtrip_disk_only :
  let E := litEnv failingRemote diskOnlyConfig in
  let res := put E (fillingCache exampleKey) exampleKey (bodyReader hello) 5
                 (emptyWorld cacheDir 0) in
  res.1.1 = None
  ∧ content <$> knownValues res.1.2 !! calcHash exampleKey = Some None
  ∧ ∃ w'', get E res.1.2 exampleKey res.2
           = (Returns (inr (FromFile (cacheDir ++ calcHash exampleKey))), w'')
           ∧ readAll (FromFile (cacheDir ++ calcHash exampleKey)) w'' = hello.
Proof. vm_compute. repeat split. eexists. split; reflexivity. Qed.

(** What the missing Flush costs: the same fill from a bytes.Reader, whose
    WriteTo hands the five bytes to the buffered writer in one call.  They
    stay in its buffer, put returns nil, and the entry reads back empty. *)
Example put_unflushed_disk_only :
  let E := litEnv failingRemote diskOnlyConfig in
  let res := put E (fillingCache exampleKey) exampleKey (bytesReader hello) 5
                 (emptyWorld cacheDir 0) in
  res.1.1 = None
  ∧ fdata <$> files res.2 !! (cacheDir ++ calcHash exampleKey) = Some [].
Proof. vm_compute. repeat split. Qed.

(** The same loss in pieces: io.MultiReader over two readers of 3000 bytes
    writes twice.  The first piece is buffered; the second fills the buffer,
    which is flushed with 4096 bytes, and its last 1904 bytes stay behind:
    put returns nil and the file is short. *)
Example put_multireader_loses_tail :
  let E := litEnv failingRemote diskOnlyConfig in
  let res := put E (fillingCache exampleKey) exampleKey (multiReader 3000 sixThousand) 6000
                 (emptyWorld cacheDir 0) in
  res.1.1 = None
  ∧ (Z.of_nat ∘ length ∘ fdata) <$> files res.2 !! (cacheDir ++ calcHash exampleKey)
    = Some 4096
  ∧ Z.of_nat (length (unflushed (multiReader 3000 sixThousand))) = 1904.
Proof. vm_compute. repeat split. Qed.

(** ** The busy markers and the known-set under concurrency *)

Lemma has_decide_cache hashValue c m :
  (has_decide hashValue c m).1.2 = c ∧ is_Some (knownValues c !! hashValue)
  ∨ (has_decide hashValue c m).1.2
    = {| folder := folder c; knownValues := knownValues c;
         busyValues := <[hashValue := length m]> (busyValues c) |}
    ∧ knownValues c !! hashValue = None.
Proof.
  unfold has_decide. destruct (knownValues c !! hashValue); cbn; eauto.
Qed.

Lemma has_decide_exclusive hashValue c m :
  cache_exclusive c → cache_exclusive (has_decide hashValue c m).1.2.
Proof.
  intros Hex. destruct (has_decide_cache hashValue c m) as [[-> _]|[-> Hk]]; [exact Hex|].
  intros h [Hb Hkn]. cbn in Hb, Hkn.
  destruct (decide (hashValue = h)) as [->|Hne].
  - rewrite Hk in Hkn. by destruct Hkn.
  - rewrite lookup_insert_ne in Hb by exact Hne. apply (Hex h). split; assumption.
Qed.

Lemma has_decide_covers h hashValue c m :
  cache_covers h c → cache_covers h (has_decide hashValue c m).1.2.
Proof.
  intros Hc. destruct (has_decide_cache hashValue c m) as [[-> _]|[-> Hk]]; [exact Hc|].
  destruct Hc as [Hb|Hkn]; [left|right; exact Hkn]. cbn.
  destruct (decide (hashValue = h)) as [->|Hne].
  - rewrite lookup_insert_eq. eauto.
  - rewrite lookup_insert_ne by exact Hne. exact Hb.
Qed.

Lemma release_exclusive hashValue content loadedAt c :
  cache_exclusive c → cache_exclusive (release hashValue content loadedAt c).
Proof.
  intros Hex h [Hb Hkn]. cbn in Hb, Hkn.
  destruct (decide (hashValue = h)) as [->|Hne].
  - rewrite lookup_delete_eq in Hb. by destruct Hb.
  - rewrite lookup_delete_ne in Hb by exact Hne.
    rewrite lookup_insert_ne in Hkn by exact Hne. apply (Hex h). split; assumption.
Qed.

Lemma release_covers h hashValue content loadedAt c :
  cache_covers h c → cache_covers h (release hashValue content loadedAt c).
Proof.
  intros Hc. unfold cache_covers. cbn.
  destruct (decide (hashValue = h)) as [->|Hne].
  - right. rewrite lookup_insert_eq. eauto.
  - rewrite lookup_delete_ne, lookup_insert_ne by exact Hne. exact Hc.
Qed.

(** release itself: the marker goes and the entry comes in the same step. *)
Lemma release_busy_to_known hashValue content loadedAt c :
  busyValues (release hashValue content loadedAt c) !! hashValue = None
  ∧ knownValues (release hashValue content loadedAt c) !! hashValue
    = Some {| loadedAt := loadedAt; content := content |}.
Proof. split; [apply lookup_delete_eq | apply lookup_insert_eq]. Qed.

(** What one step does to the cache: nothing, the decision of has, or a
    release. *)
Lemma exec_cache a s s' :
  exec a s = Some s' →
  cache s' = cache s
  ∨ (∃ hashValue, cache s' = (has_decide hashValue (cache s) (mutexes s)).1.2)
  ∨ (∃ hashValue content loadedAt, cache s' = release hashValue content loadedAt (cache s)).
Proof.
  destruct a as [tid|tid rel|hashValue content loadedAt]; cbn [exec]; intros Hexec.
  - destruct (threads s !! tid) as [[key|h lock|h lock|h|h lock|lock| |]|];
      try discriminate.
    + destruct (busyValues (cache s) !! calcHash key).
      * injection Hexec as <-. left. reflexivity.
      * destruct (has_decide (calcHash key) (cache s) (mutexes s)) as [[res c] m] eqn:Hd.
        injection Hexec as <-. right. left. exists (calcHash key). rewrite Hd. reflexivity.
    + destruct (mutexes s !! lock) as [[|]|]; try discriminate.
      injection Hexec as <-. left. reflexivity.
    + injection Hexec as <-. left. reflexivity.
    + destruct (has_decide h (cache s) (mutexes s)) as [[res c] m] eqn:Hd.
      injection Hexec as <-. right. left. exists h. rewrite Hd. reflexivity.
    + injection Hexec as <-. left. reflexivity.
  - destruct (threads s !! tid) as [[key|h lock|h lock|h|h lock|lock| |]|];
      try discriminate.
    injection Hexec as <-. destruct rel as [[content loadedAt]|]; cbn.
    + right. right. eauto.
    + left. reflexivity.
  - injection Hexec as <-. right. right. cbn. eauto.
Qed.

Lemma step_exclusive s s' :
  step s s' → cache_exclusive (cache s) → cache_exclusive (cache s').
Proof.
  intros [a Hexec] Hex.
  destruct (exec_cache _ _ _ Hexec) as [->|[[h ->]|(h & content & t & ->)]].
  - exact Hex.
  - apply has_decide_exclusive, Hex.
  - apply release_exclusive, Hex.
Qed.

Lemma step_covers h s s' :
  step s s' → cache_covers h (cache s) → cache_covers h (cache s').
Proof.
  intros [a Hexec] Hc.
  destruct (exec_cache _ _ _ Hexec) as [->|[[h' ->]|(h' & content & t & ->)]].
  - exact Hc.
  - apply has_decide_covers, Hc.
  - apply release_covers, Hc.
Qed.

Lemma reachable_exclusive s s' :
  rtc step s s' → cache_exclusive (cache s) → cache_exclusive (cache s').
Proof.
  induction 1 as [|s1 s2 s3 Hstep _ IH]; [done|].
  intros Hex. apply IH, (step_exclusive s1), Hex. exact Hstep.
Qed.

(** C7. In every state reachable from a cache without busy markers (as
    CreateCache returns it), whatever the goroutines and their schedule:
    an identifier has at most one registered busy marker, it is never both
    busy and known, and no step takes an identifier that is busy or known
    to a state where it is neither - release, in particular, removes the
    marker and inserts the entry in one step. *)
Theorem busy_known_exclusive s s' hashValue :
  busyValues (cache s) = ∅ →
  rtc step s s' →
  (∀ lock1 lock2,
      busyValues (cache s') !! hashValue = Some lock1 →
      busyValues (cache s') !! hashValue = Some lock2 → lock1 = lock2)
  ∧ ¬ (busy hashValue s' ∧ known hashValue s')
  ∧ (∀ s'', step s' s'' →
       busy hashValue s' ∨ known hashValue s' → busy hashValue s'' ∨ known hashValue s'')
  ∧ (∀ content loadedAt,
       ¬ busy hashValue
           {| cache := release hashValue content loadedAt (cache s');
              mutexes := mutexes s'; threads := threads s' |}
       ∧ known hashValue
           {| cache := release hashValue content loadedAt (cache s');
              mutexes := mutexes s'; threads := threads s' |}).
Proof.
  intros Hinit Hreach.
  assert (Hex : cache_exclusive (cache s')).
  { apply (reachable_exclusive s); [exact Hreach|].
    intros h [Hb _]. rewrite Hinit, lookup_empty in Hb. by destruct Hb. }
  split; [|split; [|split]].
  - intros lock1 lock2 H1 H2. congruence.
  - apply Hex.
  - intros s'' Hstep. apply (step_covers hashValue s' s'' Hstep).
  - intros content loadedAt. unfold busy, known; cbn [cache].
    destruct (release_busy_to_known hashValue content loadedAt (cache s')) as [-> ->].
    split; [intros [x Hx]; discriminate | eauto].
Qed.

Lemma run_reaches sched s s' : run sched s = Some s' → rtc step s s'.
Proof.
  revert s. induction sched as [|a rest IH]; intros s; cbn [run].
  - intros [= ->]. apply rtc_refl.
  - destruct (exec a s) as [s1|] eqn:Hexec; [|discriminate].
    intros Hrun. apply (rtc_l _ _ s1); [exists a; exact Hexec | apply IH, Hrun].
Qed.

Lemma busy_known_exclusive_witness :
  let h := calcHash exampleKey in
  let s := callers 2 exampleKey emptyCache in
  let s' := {| cache := release h (Some hello) 7 emptyCache;
               mutexes := [false];
               threads := [Finished; AtLock h O] |} in
  busyValues (cache s) = ∅
  ∧ rtc step s s'
  ∧ ¬ (busy h s' ∧ known h s').
Proof.
  intros h s s'.
  assert (Hreach : rtc step s s').
  { apply (run_reaches [Run O; Run 1%nat; Put O (Some (Some hello, 7)); Run O]).
    vm_compute. reflexivity. }
  split; [reflexivity|]. split; [exact Hreach|].
  exact (proj1 (proj2 (busy_known_exclusive s s' h eq_refl Hreach))).
Defined.

(** ** Single flight *)

Section SingleFlight.

Variable key : string.

Lemma first_caller_fills tid s s' :
  ¬ known (calcHash key) s →
  no_filler key s →
  exec (Run tid) s = Some s' →
  one_filler key s' ∧ ¬ known (calcHash key) s'.
Proof.
  intros Hunknown [Hbusy Hall]. cbn [exec].
  destruct (threads s !! tid) as [p|] eqn:Htid; [|discriminate].
  rewrite (Hall tid p Htid), Hbusy. unfold has_decide.
  destruct (knownValues (cache s) !! calcHash key) as [kv|] eqn:Hk.
  { exfalso. apply Hunknown. unfold known. rewrite Hk. eauto. }
  intros [= <-]. cbn. split.
  - exists tid, (length (mutexes s)). cbn. split; [|split; [|split]].
    + apply list_lookup_insert_eq. eapply lookup_lt_Some, Htid.
    + apply lookup_insert_eq.
    + apply list_lookup_middle. reflexivity.
    + intros tid' p' Hne. rewrite list_lookup_insert_ne by done.
      intros Hp'. left. apply (Hall tid' p' Hp').
  - unfold known. cbn. rewrite Hk. intros [x Hx]. discriminate.
Qed.

Lemma later_callers_wait tid s s' :
  ¬ known (calcHash key) s →
  one_filler key s →
  exec (Run tid) s = Some s' →
  one_filler key s' ∧ ¬ known (calcHash key) s'.
Proof.
  intros Hunknown (filler & lock & Hfiller & Hbusy & Hlocked & Hothers). cbn [exec].
  destruct (decide (tid = filler)) as [->|Hne].
  { rewrite Hfiller. discriminate. }
  destruct (threads s !! tid) as [p|] eqn:Htid; [|discriminate].
  destruct (Hothers tid p Hne Htid) as [-> | ->].
  - rewrite Hbusy. intros [= <-]. cbn. split; [|exact Hunknown].
    exists filler, lock. cbn. split; [|split; [|split]].
    + rewrite list_lookup_insert_ne by done. exact Hfiller.
    + exact Hbusy.
    + exact Hlocked.
    + intros tid' p' Hne'. destruct (decide (tid = tid')) as [<-|Hne''].
      * rewrite list_lookup_insert_eq by (eapply lookup_lt_Some, Htid).
        intros [= <-]. right. reflexivity.
      * rewrite list_lookup_insert_ne by done. apply Hothers, Hne'.
  - rewrite Hlocked. discriminate.
Qed.

Lemma waiting_keeps_one_filler sched s s' :
  ¬ known (calcHash key) s →
  one_filler key s →
  Forall is_run sched →
  run sched s = Some s' →
  one_filler key s' ∧ ¬ known (calcHash key) s'.
Proof.
  intros Hunknown Hone Hruns. revert s Hunknown Hone.
  induction Hruns as [|a rest Ha _ IH]; intros s Hunknown Hone; cbn [run].
  - intros [= <-]. split; assumption.
  - destruct a as [tid| |]; try contradiction.
    destruct (exec (Run tid) s) as [s1|] eqn:Hexec; [|discriminate].
    destruct (later_callers_wait tid s s1 Hunknown Hone Hexec) as [Hone1 Hunknown1].
    apply IH; assumption.
Qed.

(** X6. The first half of the single-flight property, which the code has: of
    n goroutines calling has for a key that is neither known nor busy,
    once any of them has taken a step exactly one holds a permit, and as
    long as it neither fills nor unlocks, every other one is still before
    its call or waits on the permit's mutex, where it cannot move. *)
Lemma first_permit_is_unique n c a sched s' :
  knownValues c !! calcHash key = None →
  busyValues c !! calcHash key = None →
  Forall is_run (a :: sched) →
  run (a :: sched) (callers n key c) = Some s' →
  one_filler key s'
  ∧ ∀ tid lock, threads s' !! tid = Some (AtLock (calcHash key) lock) →
                exec (Run tid) s' = None.
Proof.
  intros Hk Hb Hruns Hrun.
  assert (Hunknown : ¬ known (calcHash key) (callers n key c)).
  { unfold known. cbn. rewrite Hk. intros [x Hx]. discriminate. }
  assert (Hnone : no_filler key (callers n key c)).
  { split; [exact Hb|]. intros tid p Hp. cbn in Hp.
    apply lookup_replicate in Hp as [-> _]. reflexivity. }
  assert (Hone : one_filler key s').
  { inversion Hruns as [|? ? Ha Hrest]; subst.
    destruct a as [tid| |]; try contradiction.
    cbn [run] in Hrun.
    destruct (exec (Run tid) (callers n key c)) as [s1|] eqn:Hexec; [|discriminate].
    destruct (first_caller_fills tid _ s1 Hunknown Hnone Hexec) as [Hone1 Hunknown1].
    apply (waiting_keeps_one_filler sched s1 s' Hunknown1 Hone1 Hrest Hrun). }
  split; [exact Hone|].
  intros tid lock Htid. destruct Hone as (filler & lock' & Hfiller & _ & Hlocked & Hothers).
  cbn [exec]. rewrite Htid.
  destruct (decide (tid = filler)) as [->|Hne'].
  { rewrite Hfiller in Htid. discriminate. }
  destruct (Hothers tid _ Hne' Htid) as [|[= ->]]; [discriminate|].
  rewrite Hlocked. reflexivity.
Qed.

End SingleFlight.

(** C8. Three goroutines call has for a key that is neither known nor
    busy.  The first gets the permit and the other two wait on it.  Its put
    fails reading the stream (memory tier), so no release runs; it unlocks
    the permit.  Both waiters wake up in turn, find the key unknown, and
    each gets a permit of its own: two goroutines fill the same identifier
    at once. *)
Theorem two_fillers_after_failed_fill :
  let E := litEnv idleRemote plainConfig in
  let h := calcHash exampleKey in
  let s0 := callers 3 exampleKey emptyCache in
  let s1 := {| cache := fillingCache exampleKey; mutexes := [true];
               threads := [Filling h O; AtLock h O; AtLock h O] |} in
  run [Run O; Run 1%nat; Run 2%nat] s0 = Some s1
  ∧ exec (Run 1%nat) s1 = None
  ∧ exec (Run 2%nat) s1 = None
  ∧ put E (cache s1) exampleKey (brokenReader hello) 5 (emptyWorld cacheDir 0)
    = (Some (ReadError "unexpected EOF"), cache s1, emptyWorld cacheDir 0)
  ∧ run [Put O None; Run O;
         Run 1%nat; Run 1%nat; Run 1%nat;
         Run 2%nat; Run 2%nat; Run 2%nat] s1
    = Some {| cache := {| folder := cacheDir; knownValues := ∅;
                          busyValues := {[ h := 2%nat ]} |};
              mutexes := [false; true; true];
              threads := [Finished; Filling h 1%nat; Filling h 2%nat] |}.
Proof. vm_compute. repeat split. Qed.

(** When the filler's put succeeds, the same schedule ends with both
    waiters finding the entry. *)
Example waiters_find_entry_after_fill :
  let h := calcHash exampleKey in
  let s1 := {| cache := fillingCache exampleKey; mutexes := [true];
               threads := [Filling h O; AtLock h O; AtLock h O] |} in
  threads <$> run [Put O (Some (Some hello, 7)); Run O;
                   Run 1%nat; Run 1%nat; Run 1%nat;
                   Run 2%nat; Run 2%nat; Run 2%nat] s1
  = Some [Finished; Found; Found].
Proof. vm_compute. reflexivity. Qed.

(** ** The key hasher *)

Lemma be_bytes_length n x : length (Sha256.be_bytes n x) = n.
Proof.
  revert x. induction n as [|n IH]; intros x; cbn [Sha256.be_bytes]; [reflexivity|].
  rewrite length_app, IH. cbn. lia.
Qed.

Lemma be_bytes_octets n x : Forall is_octet (Sha256.be_bytes n x).
Proof.
  revert x. induction n as [|n IH]; intros x; cbn [Sha256.be_bytes]; [constructor|].
  apply Forall_app. split; [apply IH|].
  constructor; [|constructor]. unfold is_octet. apply Z.mod_pos_bound. lia.
Qed.

Lemma blocks_length n h bs : length h = 8%nat → length (Sha256.blocks n h bs) = 8%nat.
Proof.
  revert h bs. induction n as [|n IH]; intros h bs Hh; cbn [Sha256.blocks]; [exact Hh|].
  apply IH. reflexivity.
Qed.

Lemma Sum256_length msg : length (Sha256.Sum256 msg) = 32%nat.
Proof.
  unfold Sha256.Sum256.
  assert (H8 : length (Sha256.blocks (length (Sha256.pad msg) / 64) Sha256.H0
                                     (Sha256.pad msg)) = 8%nat)
    by (apply blocks_length; reflexivity).
  revert H8. generalize (Sha256.blocks (length (Sha256.pad msg) / 64) Sha256.H0
                                       (Sha256.pad msg)).
  intros l Hl.
  do 9 (destruct l as [|? l]; try discriminate).
  cbn [flat_map]. rewrite !length_app, !be_bytes_length. reflexivity.
Qed.

Lemma Sum256_octets msg : Forall is_octet (Sha256.Sum256 msg).
Proof.
  unfold Sha256.Sum256.
  generalize (Sha256.blocks (length (Sha256.pad msg) / 64) Sha256.H0 (Sha256.pad msg)).
  intros l. induction l as [|x l IH]; cbn [flat_map]; [constructor|].
  apply Forall_app. split; [apply be_bytes_octets | exact IH].
Qed.

Lemma hexdigit_is_hex n : 0 ≤ n < 16 → is_hex (hexdigit n) = true.
Proof.
  intros Hn.
  assert (Hcases : n = 0 ∨ n = 1 ∨ n = 2 ∨ n = 3 ∨ n = 4 ∨ n = 5 ∨ n = 6 ∨ n = 7
                   ∨ n = 8 ∨ n = 9 ∨ n = 10 ∨ n = 11 ∨ n = 12 ∨ n = 13 ∨ n = 14
                   ∨ n = 15) by lia.
  repeat (destruct Hcases as [->|Hcases]; [vm_compute; reflexivity|]).
  subst n. vm_compute. reflexivity.
Qed.

Lemma EncodeToString_length bs :
  String.length (EncodeToString bs) = (2 * length bs)%nat.
Proof.
  induction bs as [|b bs IH]; [reflexivity|].
  cbn [EncodeToString String.length length]. rewrite IH. lia.
Qed.

Lemma EncodeToString_hex bs :
  Forall is_octet bs →
  Forall (λ c, is_hex c = true) (list_ascii_of_string (EncodeToString bs)).
Proof.
  induction 1 as [|b bs Hb _ IH]; [constructor|].
  cbn [EncodeToString list_ascii_of_string]. unfold is_octet in Hb.
  constructor; [apply hexdigit_is_hex|constructor; [apply hexdigit_is_hex|exact IH]].
  - split; [apply Z.div_pos; lia | apply Z.div_lt_upper_bound; lia].
  - apply Z.mod_pos_bound. lia.
Qed.

Lemma calcHash_hex_facts data :
  String.length (calcHash data) = 64%nat
  ∧ Forall (λ c, is_hex c = true) (list_ascii_of_string (calcHash data)).
Proof.
  unfold calcHash. split.
  - rewrite EncodeToString_length, Sum256_length. reflexivity.
  - apply EncodeToString_hex, Sum256_octets.
Qed.

Lemma hex_string_no_slash s :
  Forall (λ c, is_hex c = true) (list_ascii_of_string s) → has_slash s = false.
Proof.
  induction s as [|c s IH]; [reflexivity|].
  cbn [list_ascii_of_string has_slash]. intros Hall.
  apply Forall_cons in Hall as [Hc Hs]. rewrite (IH Hs), orb_false_r.
  apply bool_decide_eq_false. intros ->. vm_compute in Hc. discriminate.
Qed.

(** The identifier is a usable entry name: not empty, no path separator. *)
Lemma calcHash_is_name key : calcHash key ≠ "" ∧ has_slash (calcHash key) = false.
Proof.
  destruct (calcHash_hex_facts key) as [Hlen Hhex].
  split; [|apply hex_string_no_slash, Hhex].
  intros Heq. rewrite Heq in Hlen. discriminate.
Qed.

(** X1. For every input string, calcHash returns exactly 64 characters,
    each one of 0-9 and a-f: a fixed-length name of lower-case hexadecimal
    digits, with no path separator in it, whatever bytes the key holds. *)
Theorem calcHash_is_hex64 data :
  String.length (calcHash data) = 64%nat
  ∧ Forall (λ c, is_hex c = true) (list_ascii_of_string (calcHash data))
  ∧ has_slash (calcHash data) = false.
Proof.
  destruct (calcHash_hex_facts data) as [Hlen Hhex].
  destruct (calcHash_is_name data) as [_ Hslash].
  split; [exact Hlen|]. split; [exact Hhex | exact Hslash].
Qed.

(** ** Start-up: the directory scan *)

Lemma strip_prefix_Some p s n : strip_prefix p s = Some n ↔ s = p ++ n.
Proof.
  revert s. induction p as [|a p IH]; intros s; cbn [strip_prefix String.append].
  - split; [intros [= ->]; reflexivity | intros ->; reflexivity].
  - destruct s as [|b s]; [split; discriminate|].
    case_bool_decide as Hab.
    + subst b. rewrite IH. split; [intros ->; reflexivity | intros [= ->]; reflexivity].
    + split; [discriminate | intros [= -> _]; contradiction].
Qed.

Lemma entryName_Some dir p n :
  entryName dir p = Some n
  ↔ p = (if ends_with_slash dir then dir else dir ++ "/") ++ n
    ∧ n ≠ "" ∧ has_slash n = false.
Proof.
  unfold entryName.
  destruct (strip_prefix _ p) as [n'|] eqn:Hstrip.
  - apply strip_prefix_Some in Hstrip.
    destruct (bool_decide (n' = "") || has_slash n') eqn:Hbad.
    + split; [discriminate|]. intros (Hp & Hne & Hslash). exfalso.
      rewrite Hstrip in Hp. apply String.app_inj in Hp. subst n'.
      apply orb_true_iff in Hbad as [Hempty|Hs]; [|congruence].
      apply bool_decide_eq_true in Hempty. contradiction.
    + apply orb_false_iff in Hbad as [Hempty Hslash].
      apply bool_decide_eq_false in Hempty.
      split.
      * intros [= <-]. auto.
      * intros (Hp & _ & _). rewrite Hstrip in Hp.
        apply String.app_inj in Hp. congruence.
  - split; [discriminate|]. intros (Hp & _ & _).
    apply strip_prefix_Some in Hp. congruence.
Qed.

(** The loop of cache.go:47-51 over a listing. *)
Lemma scan_lookup (l : list FileInfo) (acc : gmap string KnownValues) n :
  let values :=
    fold_left (λ (values : gmap string KnownValues) info,
                 if negb (IsDir info) then <[Name info := zeroKnownValues]> values
                 else values) l acc in
  (values !! n = Some zeroKnownValues
   ∧ ∃ info, info ∈ l ∧ Name info = n ∧ IsDir info = false)
  ∨ (values !! n = acc !! n
     ∧ ∀ info, info ∈ l → Name info = n → IsDir info = true).
Proof.
  revert acc. induction l as [|i l IH]; intros acc; cbn [fold_left].
  - right. split; [reflexivity|]. intros info Hin. by apply elem_of_nil in Hin.
  - destruct (IH (if negb (IsDir i) then <[Name i := zeroKnownValues]> acc else acc))
      as [[Hv (info & Hin & Hname & Hfile)] | [Hv Hdirs]].
    + left. split; [exact Hv|]. exists info. split; [|auto]. apply elem_of_cons. auto.
    + destruct (IsDir i) eqn:Hdir; cbn [negb] in Hv |- *.
      * right. split; [exact Hv|]. intros info Hin Hname.
        apply elem_of_cons in Hin as [->|Hin]; [exact Hdir | exact (Hdirs info Hin Hname)].
      * destruct (decide (Name i = n)) as [Heq|Hne].
        -- left. split.
           ++ rewrite Hv, Heq. apply lookup_insert_eq.
           ++ exists i. split; [apply elem_of_cons; auto | auto].
        -- right. split.
           ++ rewrite Hv. apply lookup_insert_ne. exact Hne.
           ++ intros info Hin Hname.
              apply elem_of_cons in Hin as [->|Hin]; [contradiction|].
              exact (Hdirs info Hin Hname).
Qed.

Lemma CreateCache_lookup path w n :
  path ∈ dirs w →
  (knownValues (CreateCache path w).1.1 !! n = Some zeroKnownValues
   ∧ ∃ p f, files w !! p = Some f ∧ entryName path p = Some n)
  ∨ (knownValues (CreateCache path w).1.1 !! n = None
     ∧ ∀ p f, files w !! p = Some f → entryName path p ≠ Some n).
Proof.
  intros Hdir. unfold CreateCache, ReadDir.
  rewrite bool_decide_eq_true_2 by exact Hdir. cbn [fst snd knownValues].
  match goal with
  | |- context [fold_left ?f ?l ∅] =>
      destruct (scan_lookup l ∅ n) as [[Hv (info & Hin & Hname & Hfile)] | [Hv Hdirs]]
  end.
  - left. split; [exact Hv|].
    apply elem_of_app in Hin as [Hin|Hin]; apply list_elem_of_omap in Hin.
    + destruct Hin as ([p f] & Hpf & Hentry). apply elem_of_map_to_list in Hpf.
      cbn [fst] in Hentry. destruct (entryName path p) as [n'|] eqn:He; [|discriminate].
      injection Hentry as <-. cbn in Hname. subst n'. eauto.
    + destruct Hin as (d & _ & Hentry).
      destruct (entryName path d); [|discriminate].
      injection Hentry as <-. discriminate.
  - right. split; [rewrite Hv; apply lookup_empty|].
    intros p f Hpf Hentry.
    assert (Hin : {| Name := n; IsDir := false |}
                  ∈ omap (λ pf : string * File,
                            (λ n, {| Name := n; IsDir := false |}) <$> entryName path pf.1)
                         (map_to_list (files w))).
    { apply list_elem_of_omap. exists (p, f). split; [by apply elem_of_map_to_list|].
      cbn [fst]. rewrite Hentry. reflexivity. }
    specialize (Hdirs _ (proj2 (elem_of_app _ _ _) (or_introl Hin)) eq_refl).
    discriminate.
Qed.

(** X2. Over a readable directory whose path ends with a slash, CreateCache
    leaves the disk as it is and builds the known-set from the names
    directly under the directory: an identifier is known exactly when a
    regular file of that name is there (subdirectories and files deeper
    down are skipped), and every entry is the zero value, with no content
    loaded. *)
Theorem CreateCache_known_set path w n :
  path ∈ dirs w →
  ends_with_slash path = true →
  (CreateCache path w).2 = w
  ∧ (is_Some (knownValues (CreateCache path w).1.1 !! n)
     ↔ n ≠ "" ∧ has_slash n = false ∧ is_Some (files w !! (path ++ n)))
  ∧ (∀ kv, knownValues (CreateCache path w).1.1 !! n = Some kv → kv = zeroKnownValues).
Proof.
  intros Hdir Hslash. split; [|split].
  - unfold CreateCache, ReadDir. rewrite bool_decide_eq_true_2 by exact Hdir. reflexivity.
  - destruct (CreateCache_lookup path w n Hdir) as [[-> (p & f & Hpf & Hentry)] | [-> Hnone]].
    + apply entryName_Some in Hentry as (-> & Hne & Hs). rewrite Hslash in Hpf.
      split; [intros _; rewrite Hpf; eauto | eauto].
    + split; [intros [x Hx]; discriminate|].
      intros (Hne & Hs & [f Hf]). exfalso. apply (Hnone (path ++ n) f Hf).
      apply entryName_Some. rewrite Hslash. auto.
  - intros kv. destruct (CreateCache_lookup path w n Hdir) as [[-> _] | [-> _]]; congruence.
Qed.

Lemma CreateCache_known_set_witness :
  let w := storedWorld exampleKey hello 3 5 in
  cacheDir ∈ dirs w
  ∧ ends_with_slash cacheDir = true
  ∧ is_Some (knownValues (CreateCache cacheDir w).1.1 !! calcHash exampleKey)
  ∧ knownValues (CreateCache cacheDir w).1.1 !! calcHash "example.com/b" = None.
Proof.
  intros w.
  assert (Hdir : cacheDir ∈ dirs w) by (vm_compute; reflexivity).
  split; [exact Hdir|]. split; [reflexivity|].
  split.
  - apply (proj1 (proj2 (CreateCache_known_set cacheDir w (calcHash exampleKey)
                           Hdir eq_refl))).
    destruct (calcHash_is_name exampleKey) as [Hne Hs].
    split; [exact Hne|]. split; [exact Hs|]. vm_compute. eauto.
  - vm_compute. reflexivity.
Defined.

Lemma put_ok_file_exists E c key r contentLength w c' w' :
  put E c key r contentLength w = (None, c', w') →
  is_Some (files w' !! (folder c ++ calcHash key)).
Proof.
  unfold put, put_body.
  destruct (contentLength <=? sizeThreshold E).
  - destruct (copyToBuffer r) as [buffer [e|]]; [discriminate|].
    unfold WriteFile. destruct (Create _ w) as [[e|] w1]; [discriminate|].
    pose proof (Write_file (folder c ++ calcHash key) (slice_bytes buffer) w1) as Hfile.
    destruct (Write _ _ w1) as [[e|] w2]; [discriminate|].
    intros [= _ <-]. exact Hfile.
  - pose proof (Create_file (folder c ++ calcHash key) w) as Hcreated.
    destruct (Create _ w) as [[e|] w1]; [discriminate|].
    pose proof (copyToFile_file (folder c ++ calcHash key) r w1 (Hcreated eq_refl)) as Hfile.
    destruct (copyToFile _ r w1) as [[e|] w2]; [discriminate|].
    intros [= _ <-]. exact Hfile.
Qed.

Lemma has_on_fresh_cache path w key :
  has key (CreateCache path w).1.1 []
  = Done (has_decide (calcHash key) (CreateCache path w).1.1 []).
Proof.
  unfold has.
  replace (busyValues (CreateCache path w).1.1) with (∅ : gmap string nat).
  - rewrite lookup_empty. reflexivity.
  - unfold CreateCache. destruct (ReadDir path w). reflexivity.
Qed.

(** X3. A fill survives a restart: when put has returned nil for a key,
    under a folder whose path ends with a slash, a cache created anew over
    that folder knows the key without reading any content, and has answers
    found = true, without waiting and without handing out a permit. *)
Theorem fill_survives_restart E c key r contentLength w c' w' :
  put E c key r contentLength w = (None, c', w') →
  ends_with_slash (folder c) = true →
  folder c ∈ dirs w' →
  knownValues (CreateCache (folder c) w').1.1 !! calcHash key = Some zeroKnownValues
  ∧ has key (CreateCache (folder c) w').1.1 []
    = Done ((None, true), (CreateCache (folder c) w').1.1, []).
Proof.
  intros Hput Hslash Hdir.
  destruct (put_ok_file_exists _ _ _ _ _ _ _ _ Hput) as [f Hf].
  assert (Hknown : knownValues (CreateCache (folder c) w').1.1 !! calcHash key
                   = Some zeroKnownValues).
  { destruct (CreateCache_lookup (folder c) w' (calcHash key) Hdir) as [[Hk _] | [_ Hnone]];
      [exact Hk|].
    exfalso. apply (Hnone _ f Hf). apply entryName_Some. rewrite Hslash.
    destruct (calcHash_is_name key). auto. }
  split; [exact Hknown|].
  rewrite has_on_fresh_cache. unfold has_decide. rewrite Hknown. reflexivity.
Qed.

Lemma fill_survives_restart_witness :
  let E := litEnv idleRemote plainConfig in
  let res := put E emptyCache exampleKey (bodyReader hello) 5 (emptyWorld cacheDir 3) in
  res.1.1 = None
  ∧ ends_with_slash cacheDir = true
  ∧ cacheDir ∈ dirs res.2
  ∧ has exampleKey (CreateCache cacheDir res.2).1.1 []
    = Done ((None, true), (CreateCache cacheDir res.2).1.1, []).
Proof.
  intros E res.
  assert (Hput : put E emptyCache exampleKey (bodyReader hello) 5 (emptyWorld cacheDir 3)
                 = (None, res.1.2, res.2)) by (vm_compute; reflexivity).
  assert (Hdir : cacheDir ∈ dirs res.2) by (vm_compute; reflexivity).
  split; [vm_compute; reflexivity|]. split; [reflexivity|]. split; [exact Hdir|].
  exact (proj2 (fill_survives_restart E emptyCache exampleKey (bodyReader hello) 5
                  (emptyWorld cacheDir 3) res.1.2 res.2 Hput eq_refl Hdir)).
Defined.

(** X4. The backing file is named folder + identifier with no separator in
    between.  Under a folder whose path does not end with a slash, a fill
    that returned nil has written its file beside the folder, not in it:
    unless a file of that name also lies inside the folder, a cache created
    anew over the folder does not know the key and has hands out a permit
    to fill it again. *)
Theorem fill_lost_without_trailing_slash E c key r contentLength w c' w' :
  put E c key r contentLength w = (None, c', w') →
  ends_with_slash (folder c) = false →
  folder c ∈ dirs w' →
  files w' !! ((folder c ++ "/") ++ calcHash key) = None →
  is_Some (files w' !! (folder c ++ calcHash key))
  ∧ knownValues (CreateCache (folder c) w').1.1 !! calcHash key = None
  ∧ ∃ c'', has key (CreateCache (folder c) w').1.1 [] = Done ((Some O, false), c'', [true]).
Proof.
  intros Hput Hslash Hdir Hinside.
  split; [exact (put_ok_file_exists _ _ _ _ _ _ _ _ Hput)|].
  assert (Hunknown : knownValues (CreateCache (folder c) w').1.1 !! calcHash key = None).
  { destruct (CreateCache_lookup (folder c) w' (calcHash key) Hdir)
      as [[_ (p & f & Hpf & Hentry)] | [Hk _]]; [|exact Hk].
    apply entryName_Some in Hentry as (-> & _ & _). rewrite Hslash in Hpf. congruence. }
  split; [exact Hunknown|].
  rewrite has_on_fresh_cache. unfold has_decide. rewrite Hunknown. eauto.
Qed.

Lemma fill_lost_without_trailing_slash_witness :
  let E := litEnv idleRemote plainConfig in
  let c := {| folder := "cache"; knownValues := ∅; busyValues := ∅ |} in
  let res := put E c exampleKey (bodyReader hello) 5 (emptyWorld "cache" 3) in
  res.1.1 = None
  ∧ ends_with_slash "cache" = false
  ∧ is_Some (files res.2 !! ("cache" ++ calcHash exampleKey))
  ∧ ∃ c'', has exampleKey (CreateCache "cache" res.2).1.1 [] = Done ((Some O, false), c'', [true]).
Proof.
  intros E c res.
  assert (Hput : put E c exampleKey (bodyReader hello) 5 (emptyWorld "cache" 3)
                 = (None, res.1.2, res.2)) by (vm_compute; reflexivity).
  assert (Hdir : "cache" ∈ dirs res.2) by (vm_compute; reflexivity).
  assert (Hinside : files res.2 !! (("cache" ++ "/") ++ calcHash exampleKey) = None)
    by (vm_compute; reflexivity).
  destruct (fill_lost_without_trailing_slash E c exampleKey (bodyReader hello) 5
              (emptyWorld "cache" 3) res.1.2 res.2 Hput eq_refl Hdir Hinside)
    as (Hfile & _ & Hhas).
  split; [vm_compute; reflexivity|]. split; [reflexivity|].
  split; [exact Hfile | exact Hhas].
Defined.

(** ** The permit *)

Lemma has_permit_inv key c m lock c' m' :
  has key c m = Done ((Some lock, false), c', m') →
  knownValues c !! calcHash key = None
  ∧ lock = length m
  ∧ c' = {| folder := folder c; knownValues := knownValues c;
            busyValues := <[calcHash key := length m]> (busyValues c) |}
  ∧ m' = (m ++ [true])%list.
Proof.
  unfold has. intros Hhas.
  assert (Hdec : has_decide (calcHash key) c m = ((Some lock, false), c', m')).
  { destruct (busyValues c !! calcHash key) as [l|]; [|congruence].
    destruct (m !! l) as [[|]|]; congruence. }
  unfold has_decide in Hdec.
  destruct (knownValues c !! calcHash key); [discriminate|].
  injection Hdec as <- <- <-. auto.
Qed.

(** X5. Once has has handed out the permit for a key, a further call of has
    for that key by the goroutine alone waits for ever, as long as the
    permit is locked.  Once the permit is unlocked with no release in
    between (the fill was given up), the next call returns a new permit, a
    mutex other than the first, and registers it in place of the old
    marker. *)
Theorem has_again_waits_for_unlock key c m lock c' m' :
  has key c m = Done ((Some lock, false), c', m') →
  has key c' m' = Blocked
  ∧ ∃ c'',
      has key c' (<[lock := false]> m')
      = Done ((Some (length m'), false), c'', (<[lock := false]> m' ++ [true])%list)
      ∧ busyValues c'' !! calcHash key = Some (length m')
      ∧ length m' ≠ lock.
Proof.
  intros Hhas. destruct (has_permit_inv _ _ _ _ _ _ Hhas) as (Hk & -> & -> & ->).
  split.
  - unfold has, Mutexes. cbn [busyValues]. rewrite lookup_insert_eq.
    rewrite list_lookup_middle by reflexivity. reflexivity.
  - eexists. split; [|split].
    + unfold has, Mutexes. cbn [busyValues]. rewrite lookup_insert_eq.
      rewrite list_lookup_insert_eq by (rewrite length_app; cbn; lia).
      unfold has_decide. cbn [knownValues]. rewrite Hk, length_insert. reflexivity.
    + cbn [busyValues]. apply lookup_insert_eq.
    + rewrite length_app. cbn. lia.
Qed.

Lemma has_again_waits_for_unlock_witness :
  has exampleKey emptyCache [] = Done ((Some O, false), fillingCache exampleKey, [true])
  ∧ has exampleKey (fillingCache exampleKey) [true] = Blocked
  ∧ ∃ c'',
      has exampleKey (fillingCache exampleKey) [false]
      = Done ((Some 1%nat, false), c'', [false; true])
      ∧ busyValues c'' !! calcHash exampleKey = Some 1%nat.
Proof.
  assert (Hhas : has exampleKey emptyCache []
                 = Done ((Some O, false), fillingCache exampleKey, [true]))
    by (vm_compute; reflexivity).
  destruct (has_again_waits_for_unlock _ _ _ _ _ _ Hhas)
    as (Hblocked & c'' & Hnext & Hbusy & _).
  split; [exact Hhas|]. split; [exact Hblocked|].
  exists c''. split; [exact Hnext | exact Hbusy].
Defined.

Lemma first_permit_is_unique_witness :
  let h := calcHash exampleKey in
  knownValues emptyCache !! h = None
  ∧ busyValues emptyCache !! h = None
  ∧ Forall is_run [Run O; Run 1%nat; Run 2%nat]
  ∧ one_filler exampleKey
      {| cache := fillingCache exampleKey; mutexes := [true];
         threads := [Filling h O; AtLock h O; AtLock h O] |}.
Proof.
  intros h.
  assert (Hruns : Forall is_run [Run O; Run 1%nat; Run 2%nat])
    by (repeat constructor).
  split; [reflexivity|]. split; [reflexivity|]. split; [exact Hruns|].
  refine (proj1 (first_permit_is_unique exampleKey 3 emptyCache (Run O)
                   [Run 1%nat; Run 2%nat] _ eq_refl eq_refl Hruns _)).
  vm_compute. reflexivity.
Defined.

Lemma exec_known h a s s' : exec a s = Some s' → known h s → known h s'.
Proof.
  intros Hexec Hk. unfold known in *.
  destruct (exec_cache _ _ _ Hexec) as [->|[[h' ->]|(h' & content & t & ->)]].
  - exact Hk.
  - destruct (has_decide_cache h' (cache s) (mutexes s)) as [[-> _]|[-> _]]; exact Hk.
  - cbn [release knownValues]. destruct (decide (h' = h)) as [->|Hne].
    + rewrite lookup_insert_eq. eauto.
    + rewrite lookup_insert_ne by exact Hne. exact Hk.
Qed.

Lemma after_decide_known h c m lock :
  is_Some (knownValues c !! h) →
  after_decide h (has_decide h c m).1.1 ≠ Filling h lock.
Proof.
  intros [kv Hk]. unfold has_decide. rewrite Hk. discriminate.
Qed.

Lemma exec_no_new_permit h a s s' tid lock :
  known h s →
  exec a s = Some s' →
  threads s' !! tid = Some (Filling h lock) →
  threads s !! tid = Some (Filling h lock).
Proof.
  intros Hk Hexec Hfill.
  assert (Hupd : ∀ tid0 p, threads s' = <[tid0 := p]> (threads s) →
                           p ≠ Filling h lock →
                           threads s !! tid = Some (Filling h lock)).
  { intros tid0 p Hthreads Hp. rewrite Hthreads in Hfill.
    destruct (decide (tid0 = tid)) as [->|Hne].
    - destruct (decide (tid < length (threads s))%nat) as [Hlt|Hge].
      + rewrite list_lookup_insert_eq in Hfill by exact Hlt. congruence.
      + rewrite list_insert_ge in Hfill by lia. exact Hfill.
    - rewrite list_lookup_insert_ne in Hfill by exact Hne. exact Hfill. }
  assert (Hdecide : ∀ hv, after_decide hv (has_decide hv (cache s) (mutexes s)).1.1
                          ≠ Filling h lock).
  { intros hv. destruct (decide (hv = h)) as [->|Hne].
    - apply after_decide_known, Hk.
    - destruct (has_decide hv (cache s) (mutexes s)) as [[[[l|] found] c] m]; cbn;
        congruence. }
  destruct a as [tid0|tid0 rel|hv content loadedAt]; cbn [exec] in Hexec.
  - destruct (threads s !! tid0) as [[key|hv l|hv l|hv|hv l|l| |]|]; try discriminate.
    + destruct (busyValues (cache s) !! calcHash key).
      * injection Hexec as <-. apply (Hupd tid0 (AtLock (calcHash key) n)); [reflexivity|].
        discriminate.
      * pose proof (Hdecide (calcHash key)) as Hd.
        destruct (has_decide (calcHash key) (cache s) (mutexes s)) as [[res c] m].
        injection Hexec as <-. apply (Hupd tid0 _ eq_refl Hd).
    + destruct (mutexes s !! l) as [[|]|]; try discriminate.
      injection Hexec as <-. apply (Hupd tid0 (AtUnlock hv l)); [reflexivity|discriminate].
    + injection Hexec as <-. apply (Hupd tid0 (AtRelock hv)); [reflexivity|discriminate].
    + pose proof (Hdecide hv) as Hd.
      destruct (has_decide hv (cache s) (mutexes s)) as [[res c] m].
      injection Hexec as <-. apply (Hupd tid0 _ eq_refl Hd).
    + injection Hexec as <-. apply (Hupd tid0 Finished); [reflexivity|discriminate].
  - destruct (threads s !! tid0) as [[key|hv l|hv l|hv|hv l|l| |]|]; try discriminate.
    injection Hexec as <-. apply (Hupd tid0 (Filled l)); [reflexivity|discriminate].
  - injection Hexec as <-. exact Hfill.
Qed.

(** X7. Once an identifier is in the known-set it stays there, and from then
    on no call of has returns a permit for it, in any interleaving of the
    goroutines: a goroutine that fills the identifier in a later state was
    already filling it when the identifier became known. *)
Theorem no_permit_once_known hashValue s s' :
  known hashValue s →
  rtc step s s' →
  known hashValue s'
  ∧ ∀ tid lock, threads s' !! tid = Some (Filling hashValue lock) →
                threads s !! tid = Some (Filling hashValue lock).
Proof.
  intros Hk Hreach. revert Hk.
  induction Hreach as [s|s1 s2 s3 [a Hexec] _ IH]; intros Hk.
  - split; [exact Hk | auto].
  - destruct (IH (exec_known _ _ _ _ Hexec Hk)) as [Hk3 Hfill].
    split; [exact Hk3|]. intros tid lock Htid.
    apply (exec_no_new_permit hashValue a s1 s2 tid lock Hk Hexec), Hfill, Htid.
Qed.

Lemma no_permit_once_known_witness :
  let h := calcHash exampleKey in
  let s := {| cache := release h (Some hello) 7 (fillingCache exampleKey);
              mutexes := [true];
              threads := [Filled O; AtLock h O; AtHas exampleKey] |} in
  let s' := {| cache := release h (Some hello) 7 (fillingCache exampleKey);
               mutexes := [false];
               threads := [Finished; Found; Found] |} in
  known h s
  ∧ rtc step s s'
  ∧ known h s'
  ∧ ∀ tid lock, threads s' !! tid ≠ Some (Filling h lock).
Proof.
  intros h s s'.
  assert (Hk : known h s) by (vm_compute; eauto).
  assert (Hreach : rtc step s s').
  { apply (run_reaches [Run O; Run 1%nat; Run 1%nat; Run 1%nat; Run 2%nat]).
    vm_compute. reflexivity. }
  destruct (no_permit_once_known h s s' Hk Hreach) as [Hk' Hnone].
  split; [exact Hk|]. split; [exact Hreach|]. split; [exact Hk'|].
  intros tid lock Htid. specialize (Hnone tid lock Htid).
  destruct tid as [|[|[|tid]]]; discriminate.
Defined.

(** ** The fill, on its own *)

Lemma put_cache_cases E c key r contentLength w :
  (put E c key r contentLength w).1.2 = c
  ∨ ∃ content, (put E c key r contentLength w).1.2
               = release (calcHash key) content (now w) c.
Proof.
  unfold put, put_body.
  destruct (contentLength <=? sizeThreshold E).
  - destruct (copyToBuffer r) as [buffer [e|]]; [left; reflexivity|].
    right. exists buffer. destruct (WriteFile _ _ w) as [[e|] w']; reflexivity.
  - right. exists None. destruct (Create _ w) as [[e|] w']; [reflexivity|].
    destruct (copyToFile _ r w') as [[e|] w'']; reflexivity.
Qed.

Lemma put_world_frame E c key r contentLength w :
  only_file_changed (folder c ++ calcHash key) w (put E c key r contentLength w).2.
Proof.
  unfold put, put_body.
  destruct (contentLength <=? sizeThreshold E).
  - destruct (copyToBuffer r) as [buffer [e|]]; [apply only_file_changed_refl|].
    pose proof (WriteFile_frame (folder c ++ calcHash key) (slice_bytes buffer) w) as Hw.
    destruct (WriteFile _ _ w) as [[e|] w']; exact Hw.
  - pose proof (Create_frame (folder c ++ calcHash key) w) as Hc.
    destruct (Create _ w) as [[e|] w']; [exact Hc|]. cbn [snd] in Hc.
    pose proof (copyToFile_frame (folder c ++ calcHash key) r w') as Hcopy.
    destruct (copyToFile _ r w') as [[e|] w'']; cbn [snd] in Hcopy |- *;
      exact (only_file_changed_trans _ _ _ _ Hc Hcopy).
Qed.

(** X9. Whatever its outcome, put touches nothing but its own identifier and
    its own backing file: the entries of the known-set and of the busy map
    under every other identifier stay as they were, every other file stays
    as it was, and the directories, the clock, the counters, the summaries
    and the record of fetches are unchanged - put emits no metric and never
    fetches. *)
Theorem put_touches_only_its_entry E c key r contentLength w :
  folder (put E c key r contentLength w).1.2 = folder c
  ∧ (∀ h, h ≠ calcHash key →
       knownValues (put E c key r contentLength w).1.2 !! h = knownValues c !! h
       ∧ busyValues (put E c key r contentLength w).1.2 !! h = busyValues c !! h)
  ∧ only_file_changed (folder c ++ calcHash key) w (put E c key r contentLength w).2.
Proof.
  split; [|split; [|apply put_world_frame]].
  - destruct (put_cache_cases E c key r contentLength w) as [-> | [content ->]];
      reflexivity.
  - intros h Hne.
    destruct (put_cache_cases E c key r contentLength w) as [-> | [content ->]];
      [auto|].
    cbn [release knownValues busyValues].
    rewrite lookup_insert_ne, lookup_delete_ne by congruence. auto.
Qed.

(** X17. The tier of an entry follows the declared length alone.  After a
    put whose stream reads without error, the known-set holds for the key
    the whole of the buffered stream when contentLength is at most the
    threshold, however many bytes the stream delivered, and nil content
    when contentLength is above it, however few; and this whether or not
    the backing file could be written.  In particular, under a threshold
    that is not negative, a stream of unknown length, declared as -1, is
    buffered whole. *)
Theorem put_tier_by_declared_length E c key r contentLength w :
  rerr r = None →
  knownValues (put E c key r contentLength w).1.2 !! calcHash key
  = Some {| loadedAt := now w;
            content := if contentLength <=? sizeThreshold E
                       then (copyToBuffer r).1 else None |}
  ∧ (contentLength = -1 → 0 ≤ sizeThreshold E →
     knownValues (put E c key r contentLength w).1.2 !! calcHash key
     = Some {| loadedAt := now w; content := (copyToBuffer r).1 |}).
Proof.
  intros Herr.
  assert (Hentry : knownValues (put E c key r contentLength w).1.2 !! calcHash key
                   = Some {| loadedAt := now w;
                             content := if contentLength <=? sizeThreshold E
                                        then (copyToBuffer r).1 else None |}).
  { unfold put, put_body.
    destruct (contentLength <=? sizeThreshold E).
    - unfold copyToBuffer. rewrite Herr. cbn [fst].
      destruct (WriteFile _ _ w) as [[e|] w']; apply lookup_insert_eq.
    - destruct (Create _ w) as [[e|] w']; [apply lookup_insert_eq|].
      destruct (copyToFile _ r w') as [[e|] w'']; apply lookup_insert_eq. }
  split; [exact Hentry|].
  intros -> Hthreshold. rewrite Hentry.
  replace (-1 <=? sizeThreshold E) with true; [reflexivity|].
  symmetry. apply Z.leb_le. lia.
Qed.

Lemma put_tier_by_declared_length_witness :
  let E := litEnv idleRemote diskOnlyConfig in
  sizeThreshold E = 0
  ∧ rerr (bodyReader hello) = None
  ∧ content <$> knownValues (put E emptyCache exampleKey (bodyReader hello) (-1)
                               (emptyWorld cacheDir 3)).1.2 !! calcHash exampleKey
    = Some (Some hello)
  ∧ content <$> knownValues (put E emptyCache exampleKey (bodyReader hello) 5
                               (emptyWorld cacheDir 3)).1.2 !! calcHash exampleKey
    = Some None.
Proof.
  intros E. split; [reflexivity|]. split; [reflexivity|]. split.
  - rewrite (proj2 (put_tier_by_declared_length E emptyCache exampleKey (bodyReader hello)
                      (-1) (emptyWorld cacheDir 3) eq_refl) eq_refl);
      [reflexivity | vm_compute; discriminate].
  - rewrite (proj1 (put_tier_by_declared_length E emptyCache exampleKey (bodyReader hello) 5
                      (emptyWorld cacheDir 3) eq_refl)). reflexivity.
Defined.

(** With a negative threshold a stream declared as -1 is not buffered. *)
Example put_unknown_length_negative_threshold :
  let E := litEnv idleRemote
             {| MaxCacheItemSize := -1; DefaultCacheTTL := 0; CacheRules := [] |} in
  sizeThreshold E = -1048576
  ∧ content <$> knownValues (put E emptyCache exampleKey (bodyReader hello) (-1)
                               (emptyWorld cacheDir 3)).1.2 !! calcHash exampleKey
    = Some None.
Proof. vm_compute. split; reflexivity. Qed.

Lemma wrap64_spec z :
  - 2 ^ 63 ≤ wrap64 z < 2 ^ 63 ∧ ∃ k, wrap64 z = z + k * 2 ^ 64.
Proof.
  unfold wrap64. split.
  - pose proof (Z.mod_pos_bound (z + 2 ^ 63) (2 ^ 64)). lia.
  - exists (- ((z + 2 ^ 63) / 2 ^ 64)).
    pose proof (Z.div_mod (z + 2 ^ 63) (2 ^ 64)). lia.
Qed.

(** X18. The threshold is an int64: it always lies in [-2^63, 2^63) and
    differs from MaxCacheItemSize * 1048576 by a multiple of 2^64, and it
    is exactly MaxCacheItemSize MiB whenever that product fits, that is for
    -2^43 <= MaxCacheItemSize < 2^43; beyond, the multiplications wrap. *)
Theorem sizeThreshold_in_range E :
  - 2 ^ 63 ≤ sizeThreshold E < 2 ^ 63
  ∧ (∃ k, sizeThreshold E = MaxCacheItemSize (config E) * 1048576 + k * 2 ^ 64)
  ∧ (- 2 ^ 43 ≤ MaxCacheItemSize (config E) < 2 ^ 43 →
     sizeThreshold E = MaxCacheItemSize (config E) * 1048576).
Proof.
  unfold sizeThreshold.
  destruct (wrap64_spec (MaxCacheItemSize (config E) * 1024)) as [_ [k1 Hk1]].
  destruct (wrap64_spec (wrap64 (MaxCacheItemSize (config E) * 1024) * 1024))
    as [Hrange [k2 Hk2]].
  split; [exact Hrange|]. split.
  - exists (k1 * 1024 + k2). rewrite Hk2, Hk1. lia.
  - intros Hfits. rewrite Hk2, Hk1 in Hrange |- *.
    assert (k1 = 0).
    { pose proof (proj1 (wrap64_spec (MaxCacheItemSize (config E) * 1024))) as H1.
      rewrite Hk1 in H1. lia. }
    subst k1. assert (k2 = 0) by lia. subst k2. lia.
Qed.

Lemma sizeThreshold_in_range_witness :
  - 2 ^ 43 ≤ MaxCacheItemSize (config (litEnv idleRemote plainConfig)) < 2 ^ 43
  ∧ sizeThreshold (litEnv idleRemote plainConfig) = 1048576.
Proof.
  assert (Hrange : - 2 ^ 43 ≤ MaxCacheItemSize (config (litEnv idleRemote plainConfig))
                   < 2 ^ 43) by (cbn; lia).
  split; [exact Hrange|].
  exact (proj2 (proj2 (sizeThreshold_in_range (litEnv idleRemote plainConfig))) Hrange).
Defined.

(** At MaxCacheItemSize = 2^43 the product wraps to -2^63. *)
Example sizeThreshold_wraps :
  sizeThreshold (litEnv idleRemote
                   {| MaxCacheItemSize := 2 ^ 43; DefaultCacheTTL := 0; CacheRules := [] |})
  = - 2 ^ 63.
Proof. reflexivity. Qed.

(** ** The read, on its own *)

Section ReadAlone.

Variable E : Env.

Lemma checkCacheTTL_expired filePath cacheURL requestedURL w fi ttl err fs :
  files w !! filePath = Some fi →
  ruleTTL E (CacheRules (config E)) cacheURL (DefaultCacheTTL (config E)) = Returns ttl →
  modTime fi + ttl < now w →
  GetRemote E requestedURL (Inc "CACHE_TOO_OLD" w) = (err, fs) →
  checkCacheTTL E filePath cacheURL requestedURL w
  = (Returns err, after_fetch requestedURL fs w).
Proof.
  intros Hf Httl Hold Hfetch. unfold checkCacheTTL, Stat. rewrite Hf, Httl.
  apply Z.ltb_lt in Hold. rewrite Hold, Hfetch. reflexivity.
Qed.

Lemma checkCacheTTL_summaries filePath cacheURL requestedURL w :
  promSummaries (checkCacheTTL E filePath cacheURL requestedURL w).2 = promSummaries w.
Proof.
  unfold checkCacheTTL. destruct (Stat filePath w); [reflexivity|].
  destruct (ruleTTL _ _ _ _); [|reflexivity].
  destruct (_ <? _); [|reflexivity].
  destruct (GetRemote E requestedURL _). reflexivity.
Qed.

(** With no backing file get stops at os.Stat, whatever the cache holds. *)
Lemma get_missing_file c requestedURL cacheURL w :
  removeSchemeFromURL E requestedURL = inr cacheURL →
  files w !! (folder c ++ calcHash cacheURL) = None →
  get E c requestedURL w
  = (Returns (inl (PathError "stat" (folder c ++ calcHash cacheURL))), w).
Proof.
  intros Hurl Hf. unfold get. rewrite Hurl, not_known_guard_dead.
  rewrite (checkCacheTTL_no_file E _ _ _ _ Hf).
  destruct (content _); reflexivity.
Qed.

(** X11. An entry held in memory is not served without its backing file:
    for a key whose known-set entry has content, get still stats the file
    first, and when the file is missing it returns the error of os.Stat and
    not the bytes it holds, without counting or observing anything. *)
Theorem get_memory_entry_needs_file c requestedURL cacheURL w loadedAt bytes :
  removeSchemeFromURL E requestedURL = inr cacheURL →
  knownValues c !! calcHash cacheURL
  = Some {| loadedAt := loadedAt; content := Some bytes |} →
  files w !! (folder c ++ calcHash cacheURL) = None →
  get E c requestedURL w
  = (Returns (inl (PathError "stat" (folder c ++ calcHash cacheURL))), w).
Proof.
  intros Hurl _ Hf. apply get_missing_file; assumption.
Qed.

(** X8. A disk-only fill whose file cannot be created still records the
    key: put returns the error of os.Create, the deferred release has made
    the key known with nil content and removed its marker, so has answers
    found = true for it, and with no older file in place get answers with
    the error of os.Stat. *)
Theorem disk_fill_failure_leaves_entry c key requestedURL r contentLength w :
  sizeThreshold E < contentLength →
  wfault w !! (folder c ++ calcHash key) = Some None →
  files w !! (folder c ++ calcHash key) = None →
  removeSchemeFromURL E requestedURL = inr key →
  let c' := release (calcHash key) None (now w) c in
  put E c key r contentLength w
  = (Some (PathError "open" (folder c ++ calcHash key)), c', w)
  ∧ (∀ m, has key c' m = Done ((None, true), c', m))
  ∧ get E c' requestedURL w
    = (Returns (inl (PathError "stat" (folder c ++ calcHash key))), w).
Proof.
  intros Htier Hfault Hf Hurl c'. apply Z.leb_gt in Htier.
  split; [|split].
  - unfold put, put_body, Create. rewrite Htier, Hfault. reflexivity.
  - intros m. apply has_after_release.
  - apply (get_missing_file c' requestedURL key w Hurl). exact Hf.
Qed.

(** X12. A refresh does not change what the same get returns from memory:
    for an entry with content whose file has expired, when the fetch
    succeeds get returns a reader over the bytes it read from the known-set
    before the check, whatever the fetch has written to the file, and
    observes their length under CACHE_READ_MEMORY. *)
Theorem get_refresh_serves_held_bytes c requestedURL cacheURL w loadedAt bytes fi ttl fs :
  removeSchemeFromURL E requestedURL = inr cacheURL →
  knownValues c !! calcHash cacheURL
  = Some {| loadedAt := loadedAt; content := Some bytes |} →
  files w !! (folder c ++ calcHash cacheURL) = Some fi →
  ruleTTL E (CacheRules (config E)) cacheURL (DefaultCacheTTL (config E)) = Returns ttl →
  modTime fi + ttl < now w →
  GetRemote E requestedURL (Inc "CACHE_TOO_OLD" w) = (None, fs) →
  get E c requestedURL w
  = (Returns (inr (FromMemory bytes)),
     Observe "CACHE_READ_MEMORY" (Z.of_nat (length bytes))
             (after_fetch requestedURL fs w)).
Proof.
  intros Hurl Hk Hf Httl Hold Hfetch. unfold get.
  rewrite Hurl, not_known_guard_dead, Hk. cbn [default content].
  rewrite (checkCacheTTL_expired _ _ _ _ _ _ _ _ Hf Httl Hold Hfetch). reflexivity.
Qed.

(** X13. On the disk-only path a refresh is read back: for a key with no
    content in memory whose file has expired, when the fetch succeeds get
    opens the file as the fetch left it, so the caller reads the new bytes
    and their length is observed under CACHE_READ_FILE; if the fetch
    reported success and left no file, get returns the error of os.Open. *)
Theorem get_refresh_reads_new_file c requestedURL cacheURL w fi ttl fs :
  removeSchemeFromURL E requestedURL = inr cacheURL →
  content (default zeroKnownValues (knownValues c !! calcHash cacheURL)) = None →
  files w !! (folder c ++ calcHash cacheURL) = Some fi →
  ruleTTL E (CacheRules (config E)) cacheURL (DefaultCacheTTL (config E)) = Returns ttl →
  modTime fi + ttl < now w →
  GetRemote E requestedURL (Inc "CACHE_TOO_OLD" w) = (None, fs) →
  let path := folder c ++ calcHash cacheURL in
  (∀ f', fs !! path = Some f' →
     get E c requestedURL w
     = (Returns (inr (FromFile path)),
        Observe "CACHE_READ_FILE" (Z.of_nat (length (fdata f')))
                (after_fetch requestedURL fs w))
     ∧ readAll (FromFile path)
               (Observe "CACHE_READ_FILE" (Z.of_nat (length (fdata f')))
                        (after_fetch requestedURL fs w))
       = fdata f')
  ∧ (fs !! path = None →
     get E c requestedURL w
     = (Returns (inl (PathError "open" path)), after_fetch requestedURL fs w)).
Proof.
  intros Hurl Hnil Hf Httl Hold Hfetch path.
  assert (Hget : get E c requestedURL w
                 = match Open path (after_fetch requestedURL fs w) with
                   | inl err => (Returns (inl err), after_fetch requestedURL fs w)
                   | inr file =>
                       match Stat file (after_fetch requestedURL fs w) with
                       | inl err => (Returns (inl err), after_fetch requestedURL fs w)
                       | inr fi' =>
                           (Returns (inr (FromFile file)),
                            Observe "CACHE_READ_FILE" (Z.of_nat (length (fdata fi')))
                                    (after_fetch requestedURL fs w))
                       end
                   end).
  { unfold get. rewrite Hurl, not_known_guard_dead, Hnil.
    rewrite (checkCacheTTL_expired _ _ _ _ _ _ _ _ Hf Httl Hold Hfetch). reflexivity. }
  split.
  - intros f' Hf'. rewrite Hget. unfold Open, Stat. cbn [files after_fetch].
    rewrite Hf'. cbn [files after_fetch]. rewrite Hf'. split; [reflexivity|].
    cbn [readAll Observe files after_fetch]. rewrite Hf'. reflexivity.
  - intros Hgone. rewrite Hget. unfold Open. cbn [files after_fetch].
    rewrite Hgone. reflexivity.
Qed.

(** X14. When the refresh of an expired entry fails, get returns the
    fetcher's error on either tier and serves nothing, although the entry,
    its content and its file are still there; the failed fetch is counted
    under CACHE_TOO_OLD and nothing is observed. *)
Theorem get_refresh_failure c requestedURL cacheURL w fi ttl err fs :
  removeSchemeFromURL E requestedURL = inr cacheURL →
  files w !! (folder c ++ calcHash cacheURL) = Some fi →
  ruleTTL E (CacheRules (config E)) cacheURL (DefaultCacheTTL (config E)) = Returns ttl →
  modTime fi + ttl < now w →
  GetRemote E requestedURL (Inc "CACHE_TOO_OLD" w) = (Some err, fs) →
  get E c requestedURL w = (Returns (inl err), after_fetch requestedURL fs w)
  ∧ counter "CACHE_TOO_OLD" (after_fetch requestedURL fs w)
    = S (counter "CACHE_TOO_OLD" w)
  ∧ promSummaries (after_fetch requestedURL fs w) = promSummaries w.
Proof.
  intros Hurl Hf Httl Hold Hfetch. split; [|split; [|reflexivity]].
  - unfold get. rewrite Hurl, not_known_guard_dead.
    rewrite (checkCacheTTL_expired _ _ _ _ _ _ _ _ Hf Httl Hold Hfetch).
    destruct (content _); reflexivity.
  - apply (counter_Inc_same "CACHE_TOO_OLD" w).
Qed.

(** X15. get observes what it serves, once: when it returns a response, the
    summaries have grown by exactly one observation, under CACHE_READ_FILE
    for the file and CACHE_READ_MEMORY for the in-memory copy, whose value
    is the number of bytes the caller will read from the response; when it
    returns an error or panics, nothing has been observed. *)
Theorem get_observes_what_it_serves c requestedURL w :
  match (get E c requestedURL w).1 with
  | Returns (inr resp) =>
      promSummaries (get E c requestedURL w).2
      = (promSummaries w
         ++ [(tier_name resp,
              Z.of_nat (length (readAll resp (get E c requestedURL w).2)))])%list
  | _ => promSummaries (get E c requestedURL w).2 = promSummaries w
  end.
Proof.
  unfold get.
  destruct (removeSchemeFromURL E requestedURL) as [err|cacheURL]; [reflexivity|].
  rewrite not_known_guard_dead.
  pose proof (checkCacheTTL_summaries (folder c ++ calcHash cacheURL) cacheURL
                requestedURL w) as Hs.
  destruct (content _) as [bytes|];
    destruct (checkCacheTTL E _ cacheURL requestedURL w) as [[[err|]|msg] w1];
    cbn [fst snd] in Hs |- *; try exact Hs.
  - cbn [promSummaries Observe readAll tier_name len]. rewrite Hs. reflexivity.
  - unfold Open, Stat.
    destruct (files w1 !! (folder c ++ calcHash cacheURL)) as [fi|] eqn:Hfi;
      cbn [fst snd]; [|exact Hs].
    rewrite Hfi. cbn [fst snd promSummaries Observe readAll tier_name files].
    rewrite Hfi, Hs. reflexivity.
Qed.

End ReadAlone.

Lemma get_memory_entry_needs_file_witness :
  let E := litEnv idleRemote plainConfig in
  let c := release (calcHash exampleKey) (Some hello) 7 emptyCache in
  let w := emptyWorld cacheDir 8 in
  removeSchemeFromURL E exampleURL = inr exampleKey
  ∧ content <$> knownValues c !! calcHash exampleKey = Some (Some hello)
  ∧ files w !! (cacheDir ++ calcHash exampleKey) = None
  ∧ get E c exampleURL w
    = (Returns (inl (PathError "stat" (cacheDir ++ calcHash exampleKey))), w).
Proof.
  intros E c w.
  split; [reflexivity|]. split; [vm_compute; reflexivity|]. split; [reflexivity|].
  apply (get_memory_entry_needs_file E c exampleURL exampleKey w 7 hello);
    [reflexivity | apply lookup_insert_eq | reflexivity].
Defined.

Lemma disk_fill_failure_leaves_entry_witness :
  let E := litEnv idleRemote diskOnlyConfig in
  let w := readOnlyWorld exampleKey 7 in
  let c' := release (calcHash exampleKey) None 7 (fillingCache exampleKey) in
  sizeThreshold E < 5
  ∧ put E (fillingCache exampleKey) exampleKey (bodyReader hello) 5 w
    = (Some (PathError "open" (cacheDir ++ calcHash exampleKey)), c', w)
  ∧ has exampleKey c' [false] = Done ((None, true), c', [false])
  ∧ get E c' exampleURL w
    = (Returns (inl (PathError "stat" (cacheDir ++ calcHash exampleKey))), w).
Proof.
  intros E w c'.
  assert (Htier : sizeThreshold E < 5) by (vm_compute; reflexivity).
  destruct (disk_fill_failure_leaves_entry E (fillingCache exampleKey) exampleKey
              exampleURL (bodyReader hello) 5 w Htier)
    as (Hput & Hhas & Hget); [vm_compute; reflexivity | reflexivity | reflexivity |].
  split; [exact Htier|]. split; [exact Hput|]. split; [apply Hhas | exact Hget].
Defined.

(** ** The refresh on examples: written at T with a TTL of 5s, read at T+6s *)

Lemma get_refresh_serves_held_bytes_witness :
  let path := cacheDir ++ calcHash exampleKey in
  let E := litEnv (rewritingRemote path fresh) plainConfig in
  let T := 100 * Second in
  let w := storedWorld exampleKey hello T (T + 6 * Second) in
  let res := get E (memoryEntryCache exampleKey hello) exampleURL w in
  T + 5 * Second < now w
  ∧ res.1 = Returns (inr (FromMemory hello))
  ∧ fdata <$> files res.2 !! path = Some fresh
  ∧ fetched res.2 = [exampleURL].
Proof.
  intros path E T w res.
  assert (Hold : T + 5 * Second < now w) by (vm_compute; reflexivity).
  assert (Hget := get_refresh_serves_held_bytes E (memoryEntryCache exampleKey hello)
                    exampleURL exampleKey w 0 hello
                    {| fdata := hello; modTime := T |} (5 * Second)
                    (<[path := {| fdata := fresh; modTime := now w |}]> (files w))
                    eq_refl (lookup_singleton_eq _ _) (lookup_singleton_eq _ _)
                    eq_refl Hold eq_refl).
  split; [exact Hold|]. unfold res. rewrite Hget. cbn [fst snd].
  split; [reflexivity|]. split; [|reflexivity].
  cbn [files Observe after_fetch]. rewrite lookup_insert_eq. reflexivity.
Defined.

Lemma get_refresh_reads_new_file_witness :
  let path := cacheDir ++ calcHash exampleKey in
  let E := litEnv (rewritingRemote path fresh) plainConfig in
  let T := 100 * Second in
  let w := storedWorld exampleKey hello T (T + 6 * Second) in
  let res := get E (diskEntryCache exampleKey) exampleURL w in
  T + 5 * Second < now w
  ∧ res.1 = Returns (inr (FromFile path))
  ∧ readAll (FromFile path) res.2 = fresh.
Proof.
  intros path E T w res.
  assert (Hold : T + 5 * Second < now w) by (vm_compute; reflexivity).
  destruct (get_refresh_reads_new_file E (diskEntryCache exampleKey)
              exampleURL exampleKey w
              {| fdata := hello; modTime := T |} (5 * Second)
              (<[path := {| fdata := fresh; modTime := now w |}]> (files w)))
    as [Hnew _].
  - reflexivity.
  - cbn [diskEntryCache knownValues]. rewrite lookup_singleton_eq. reflexivity.
  - apply lookup_singleton_eq.
  - reflexivity.
  - exact Hold.
  - reflexivity.
  - destruct (Hnew {| fdata := fresh; modTime := now w |} (lookup_insert_eq _ _ _))
      as [Hget Hread].
    split; [exact Hold|]. unfold res. rewrite Hget. cbn [fst snd].
    split; [reflexivity | exact Hread].
Defined.

Lemma get_refresh_failure_witness :
  let E := litEnv failingRemote plainConfig in
  let T := 100 * Second in
  let w := storedWorld exampleKey hello T (T + 6 * Second) in
  T + 5 * Second < now w
  ∧ (get E (memoryEntryCache exampleKey hello) exampleURL w).1
    = Returns (inl (FetchError exampleURL))
  ∧ (get E (diskEntryCache exampleKey) exampleURL w).1
    = Returns (inl (FetchError exampleURL)).
Proof.
  intros E T w.
  assert (Hold : T + 5 * Second < now w) by (vm_compute; reflexivity).
  split; [exact Hold|]. split.
  - rewrite (proj1 (get_refresh_failure E (memoryEntryCache exampleKey hello)
                      exampleURL exampleKey w {| fdata := hello; modTime := T |}
                      (5 * Second) (FetchError exampleURL) (files w)
                      eq_refl (lookup_singleton_eq _ _) eq_refl Hold eq_refl)).
    reflexivity.
  - rewrite (proj1 (get_refresh_failure E (diskEntryCache exampleKey)
                      exampleURL exampleKey w {| fdata := hello; modTime := T |}
                      (5 * Second) (FetchError exampleURL) (files w)
                      eq_refl (lookup_singleton_eq _ _) eq_refl Hold eq_refl)).
    reflexivity.
Defined.

Lemma get_returns_when_rules_compile_witness :
  let E := litEnv idleRemote imageRules in
  Forall (compiles E) (CacheRules (config E))
  ∧ ∃ res w', get E emptyCache "http://example.com/images/x.png" (emptyWorld cacheDir 0)
              = (Returns res, w').
Proof.
  intros E.
  assert (Hc : Forall (compiles E) (CacheRules (config E))).
  { repeat constructor; vm_compute; eauto. }
  split; [exact Hc|].
  exact (get_returns_when_rules_compile E emptyCache "http://example.com/images/x.png"
           (emptyWorld cacheDir 0) Hc).
Defined.

(** The second pattern of the list does not compile, and the key matches
    the first: the loop returns 10s. *)
Lemma ruleTTL_first_match_witness :
  let E := litEnv idleRemote brokenRules in
  Compile E "^/images/" = Some (Lit true "/images/")
  ∧ Compile E "(" = None
  ∧ ruleTTL E (CacheRules (config E)) "/images/x.png" (DefaultCacheTTL (config E))
    = Returns (10 * Second).
Proof.
  intros E. split; [reflexivity|]. split; [reflexivity|].
  exact (ruleTTL_first_match E [] "a" {| Regex := "^/images/"; TTL := 10 * Second |}
           [("b", {| Regex := "("; TTL := Hour |})] (Lit true "/images/")
           "/images/x.png" (5 * Second) (List.Forall_nil _) eq_refl eq_refl).
Defined.
